(** * redis-liveset: a Redis-backed set replicated between nodes

    A shallow embedding of [operations.ts], [store.ts] and [index.ts]:
    the operation model, the Redux store wired to two Redis connections
    and the [RedisLiveSet] wrapper, followed by the properties of the
    specification that can be settled on them. *)

From Stdlib Require Import ZArith Ascii String List Lia.
From Stdlib Require Import Decimal DecimalString DecimalPos DecimalZ.
From stdpp Require Import base decidable countable gmap strings list.

(** ** JavaScript values

    The values the code passes around are untyped at run time: what a
    [TypeMatcher] inspects, what [JSON.parse] returns, what sits in
    [action.type].  Numbers are the integers, which JavaScript holds
    exactly below 2^53 (fractions and exponents are outside the model); an
    object is its list of own properties in enumeration order. *)

#[local] Unset Elimination Schemes.
Inductive jsval : Type :=
  | JUndefined
  | JNull
  | JBool (b : bool)
  | JNum (n : Z)
  | JStr (s : string)
  | JArr (items : list jsval)
  | JObj (fields : list (string * jsval)).
#[local] Set Elimination Schemes.

(** Induction that also descends into array items and property values. *)
Section jsval_induction.
Variable P : jsval -> Prop.
Hypothesis Hundef : P JUndefined.
Hypothesis Hnull : P JNull.
Hypothesis Hbool : forall b, P (JBool b).
Hypothesis Hnum : forall n, P (JNum n).
Hypothesis Hstr : forall s, P (JStr s).
Hypothesis Harr : forall items, Forall P items -> P (JArr items).
Hypothesis Hobj : forall fields, Forall (fun kv => P (snd kv)) fields -> P (JObj fields).

Fixpoint jsval_ind' (v : jsval) : P v :=
  match v with
  | JUndefined => Hundef
  | JNull => Hnull
  | JBool b => Hbool b
  | JNum n => Hnum n
  | JStr s => Hstr s
  | JArr items =>
      Harr items
        ((fix go (l : list jsval) : Forall P l :=
            match l with
            | [] => @List.Forall_nil _ P
            | x :: l' => @List.Forall_cons _ P x l' (jsval_ind' x) (go l')
            end) items)
  | JObj fields =>
      Hobj fields
        ((fix go (l : list (string * jsval)) : Forall (fun kv => P (snd kv)) l :=
            match l with
            | [] => @List.Forall_nil _ _
            | kv :: l' => @List.Forall_cons _ _ kv l' (jsval_ind' (snd kv)) (go l')
            end) fields)
  end.
End jsval_induction.

(** Values are countable, so that they can be members of a [gset]: each
    value is flattened to a generic tree over its leaves. *)
Module JsCount.
Definition leaf : Type := (bool + Z + string)%type.

Fixpoint enc (v : jsval) : gen_tree leaf :=
  match v with
  | JUndefined => GenNode 0%nat []
  | JNull => GenNode 1%nat []
  | JBool b => GenLeaf (inl (inl b))
  | JNum n => GenLeaf (inl (inr n))
  | JStr s => GenLeaf (inr s)
  | JArr items => GenNode 2%nat (map enc items)
  | JObj fields =>
      GenNode 3%nat (map (fun kv => GenNode 4%nat [GenLeaf (inr (fst kv)); enc (snd kv)]) fields)
  end.

Fixpoint dec (t : gen_tree leaf) : jsval :=
  match t with
  | GenLeaf (inl (inl b)) => JBool b
  | GenLeaf (inl (inr n)) => JNum n
  | GenLeaf (inr s) => JStr s
  | GenNode 0 _ => JUndefined
  | GenNode 1 _ => JNull
  | GenNode 2 ts => JArr (map dec ts)
  | GenNode 3 ts =>
      JObj (map (fun t' =>
                   match t' with
                   | GenNode _ [GenLeaf (inr k); tv] => (k, dec tv)
                   | _ => (EmptyString, JUndefined)
                   end) ts)
  | GenNode _ _ => JUndefined
  end.

Lemma dec_enc (v : jsval) : dec (enc v) = v.
Proof.
  induction v using jsval_ind'; simpl; try reflexivity.
  - f_equal. rewrite map_map.
    induction H as [|x l Hx _ IH]; simpl; [reflexivity|].
    rewrite Hx. f_equal. exact IH.
  - f_equal. rewrite map_map.
    induction H as [|[k x] l Hx _ IH]; simpl in *; [reflexivity|].
    rewrite Hx. f_equal. exact IH.
Qed.

Lemma enc_inj (v w : jsval) : enc v = enc w -> v = w.
Proof. intros E. rewrite <- (dec_enc v), <- (dec_enc w), E. reflexivity. Qed.
End JsCount.

#[global] Instance jsval_eq_dec : EqDecision jsval.
Proof.
  intros v w.
  destruct (decide (JsCount.enc v = JsCount.enc w)) as [E|N].
  - left. apply JsCount.enc_inj, E.
  - right. intros ->. apply N. reflexivity.
Defined.

#[global] Instance jsval_countable : Countable jsval :=
  inj_countable' JsCount.enc JsCount.dec JsCount.dec_enc.

(** The state held by the store: an Immutable.js [Set].  Membership is by
    value, as [Immutable.is] compares numbers, strings, booleans, [null]
    and [undefined].  Arrays and plain objects it compares by reference,
    which a [jsval] does not carry: the Sets below stand for the Sets of
    the code as far as their members are primitive values, and what is
    stated of membership, of equal Sets or of a number of members is
    stated of such values. *)
Abbreviation ISet := (gset jsval).

Definition primitive (v : jsval) : bool :=
  match v with
  | JArr _ | JObj _ => false
  | _ => true
  end.

Definition primitive_set (set : ISet) : Prop :=
  forall x, x ∈ set -> primitive x = true.

(** A value type of primitive values, as numbers and strings are. *)
Definition primitive_matcher (matcher : jsval -> bool) : Prop :=
  forall v, matcher v = true -> primitive v = true.

Example iset_computes : bool_decide (({[JNum 1; JNum 2]} : ISet) ∖ {[JNum 1]} = {[JNum 2]}) = true.
Proof. vm_compute. reflexivity. Qed.

(** ** JSON text

    [JSON.stringify] and [JSON.parse] on the values above.  A string is
    its sequence of bytes; [\u] escapes above 127 and number literals
    with a fraction or an exponent have no value in the model, and
    [JSON.parse] gives [None] on them as it does where it throws. *)
Module JSON.
Definition dquote : ascii := "034"%char.
Definition bslash : ascii := "092"%char.

Definition is_ws (c : ascii) : bool :=
  match c with
  | " "%char | "009"%char | "010"%char | "013"%char => true
  | _ => false
  end.

Definition is_digit (c : ascii) : bool :=
  match c with
  | "0"%char | "1"%char | "2"%char | "3"%char | "4"%char
  | "5"%char | "6"%char | "7"%char | "8"%char | "9"%char => true
  | _ => false
  end.

Fixpoint skip_ws (s : string) : string :=
  match s with
  | String c s' => if is_ws c then skip_ws s' else s
  | EmptyString => s
  end.

(** *** JSON.stringify *)

Definition hex_digits : string := "0123456789abcdef".

Definition hex_digit (n : nat) : ascii :=
  default "0"%char (String.get n hex_digits).

Definition escape_char (c : ascii) : string :=
  if Ascii.eqb c dquote then String bslash (String dquote EmptyString)
  else if Ascii.eqb c bslash then String bslash (String bslash EmptyString)
  else if Ascii.eqb c "008"%char then String bslash "b"
  else if Ascii.eqb c "012"%char then String bslash "f"
  else if Ascii.eqb c "010"%char then String bslash "n"
  else if Ascii.eqb c "013"%char then String bslash "r"
  else if Ascii.eqb c "009"%char then String bslash "t"
  else if Nat.ltb (nat_of_ascii c) 32 then
    String bslash
      ("u00" +:+ String (hex_digit (nat_of_ascii c / 16))
                   (String (hex_digit (nat_of_ascii c mod 16)) EmptyString))
  else String c EmptyString.

Fixpoint escape (s : string) : string :=
  match s with
  | EmptyString => EmptyString
  | String c s' => escape_char c +:+ escape s'
  end.

Definition quote (s : string) : string :=
  String dquote (escape s +:+ String dquote EmptyString).

Definition ser_num (n : Z) : string := NilZero.string_of_int (Z.to_int n).

Fixpoint commas (l : list string) : string :=
  match l with
  | [] => EmptyString
  | x :: l' => match l' with [] => x | _ => x +:+ "," +:+ commas l' end
  end.

(** A property whose value is [undefined] is left out of an object; an
    [undefined] array item is written [null]. *)
Fixpoint ser (v : jsval) : string :=
  match v with
  | JUndefined => "null"
  | JNull => "null"
  | JBool true => "true"
  | JBool false => "false"
  | JNum n => ser_num n
  | JStr s => quote s
  | JArr items => "[" +:+ commas (map ser items) +:+ "]"
  | JObj fields =>
      "{" +:+ commas (omap (fun kv =>
                              match snd kv with
                              | JUndefined => None
                              | _ => Some (quote (fst kv) +:+ ":" +:+ ser (snd kv))
                              end) fields) +:+ "}"
  end.

(** [JSON.stringify(undefined)] is [undefined], not a string. *)
Definition stringify (v : jsval) : option string :=
  match v with
  | JUndefined => None
  | _ => Some (ser v)
  end.

(** *** JSON.parse *)

(** The place of a character in a string. *)
Fixpoint index_of (c : ascii) (s : string) : option nat :=
  match s with
  | EmptyString => None
  | String d s' => if Ascii.eqb c d then Some 0 else S <$> index_of c s'
  end.

(** A hexadecimal digit, in either case. *)
Definition hex_val (c : ascii) : option nat :=
  match index_of c hex_digits with
  | Some n => Some n
  | None => (fun n => 10 + n) <$> index_of c "ABCDEF"
  end.

Definition unescape (e : ascii) : option ascii :=
  if Ascii.eqb e dquote then Some dquote
  else if Ascii.eqb e bslash then Some bslash
  else match e with
       | "/" => Some "/" | "b" => Some "008" | "f" => Some "012"
       | "n" => Some "010" | "r" => Some "013" | "t" => Some "009"
       | _ => None
       end%char.

Definition hex4 (h1 h2 h3 h4 : ascii) : option nat :=
  a ← hex_val h1; b ← hex_val h2; c ← hex_val h3; d ← hex_val h4;
  Some (((a * 16 + b) * 16 + c) * 16 + d).

(** The characters of a string literal after its opening quote, up to
    and including the closing one. *)
Fixpoint parse_chars (s : string) : option (string * string) :=
  match s with
  | EmptyString => None
  | String c s' =>
      if Ascii.eqb c dquote then Some (EmptyString, s')
      else if Ascii.eqb c bslash then
        match s' with
        | String e s'' =>
            match unescape e with
            | Some c' =>
                '(str, rest) ← parse_chars s''; Some (String c' str, rest)
            | None =>
                if Ascii.eqb e "u"%char then
                  match s'' with
                  | String h1 (String h2 (String h3 (String h4 s3))) =>
                      code ← hex4 h1 h2 h3 h4;
                      if Nat.ltb code 128 then
                        '(str, rest) ← parse_chars s3;
                        Some (String (ascii_of_nat code) str, rest)
                      else None
                  | _ => None
                  end
                else None
            end
        | EmptyString => None
        end
      else if Nat.ltb (nat_of_ascii c) 32 then None
      else '(str, rest) ← parse_chars s'; Some (String c str, rest)
  end.

Fixpoint span_digits (s : string) : string * string :=
  match s with
  | String c s' =>
      if is_digit c then
        let (ds, rest) := span_digits s' in (String c ds, rest)
      else (EmptyString, s)
  | EmptyString => (EmptyString, EmptyString)
  end.

Definition starts_fraction (s : string) : bool :=
  match s with
  | String c _ =>
      Ascii.eqb c "."%char || Ascii.eqb c "e"%char || Ascii.eqb c "E"%char
  | EmptyString => false
  end.

(** No digit, or a zero followed by more digits, is a syntax error. *)
Definition parse_uint (s : string) : option (Z * string) :=
  let (ds, rest) := span_digits s in
  match ds with
  | EmptyString => None
  | String d ds' =>
      if Ascii.eqb d "0"%char && negb (String.eqb ds' EmptyString) then None
      else if starts_fraction rest then None
      else u ← NilEmpty.uint_of_string ds; Some (Z.of_uint u, rest)
  end.

Definition parse_number (s : string) : option (jsval * string) :=
  match s with
  | String c s' =>
      if Ascii.eqb c "-"%char then
        '(n, rest) ← parse_uint s'; Some (JNum (- n), rest)
      else '(n, rest) ← parse_uint s; Some (JNum n, rest)
  | EmptyString => None
  end.

Fixpoint strip_prefix (p s : string) : option string :=
  match p with
  | EmptyString => Some s
  | String a p' =>
      match s with
      | String b s' => if Ascii.eqb a b then strip_prefix p' s' else None
      | EmptyString => None
      end
  end.

(** A repeated key keeps its first position and takes the last value. *)
Fixpoint obj_set (k : string) (v : jsval) (fields : list (string * jsval))
  : list (string * jsval) :=
  match fields with
  | [] => [(k, v)]
  | (k', v') :: fs =>
      if String.eqb k' k then (k', v) :: fs else (k', v') :: obj_set k v fs
  end.

(** Every call uses one unit of [fuel]; a text never needs more than
    its length. *)
Fixpoint parse_value (fuel : nat) (s : string) {struct fuel}
  : option (jsval * string) :=
  match fuel with
  | O => None
  | S fuel' =>
      match skip_ws s with
      | EmptyString => None
      | String c rest =>
          if Ascii.eqb c "n"%char then
            r ← strip_prefix "ull" rest; Some (JNull, r)
          else if Ascii.eqb c "t"%char then
            r ← strip_prefix "rue" rest; Some (JBool true, r)
          else if Ascii.eqb c "f"%char then
            r ← strip_prefix "alse" rest; Some (JBool false, r)
          else if Ascii.eqb c dquote then
            '(str, r) ← parse_chars rest; Some (JStr str, r)
          else if Ascii.eqb c "["%char then
            match skip_ws rest with
            | String c' r =>
                if Ascii.eqb c' "]"%char then Some (JArr [], r)
                else parse_items fuel' rest []
            | EmptyString => None
            end
          else if Ascii.eqb c "{"%char then
            match skip_ws rest with
            | String c' r =>
                if Ascii.eqb c' "}"%char then Some (JObj [], r)
                else parse_members fuel' rest []
            | EmptyString => None
            end
          else parse_number (String c rest)
      end
  end
with parse_items (fuel : nat) (s : string) (acc : list jsval) {struct fuel}
  : option (jsval * string) :=
  match fuel with
  | O => None
  | S fuel' =>
      '(v, r) ← parse_value fuel' s;
      match skip_ws r with
      | String c r' =>
          if Ascii.eqb c ","%char then parse_items fuel' r' (v :: acc)
          else if Ascii.eqb c "]"%char then Some (JArr (rev (v :: acc)), r')
          else None
      | EmptyString => None
      end
  end
with parse_members (fuel : nat) (s : string) (acc : list (string * jsval))
       {struct fuel} : option (jsval * string) :=
  match fuel with
  | O => None
  | S fuel' =>
      match skip_ws s with
      | String q r0 =>
          if Ascii.eqb q dquote then
            '(k, r1) ← parse_chars r0;
            match skip_ws r1 with
            | String c1 r2 =>
                if Ascii.eqb c1 ":"%char then
                  '(v, r3) ← parse_value fuel' r2;
                  match skip_ws r3 with
                  | String c r4 =>
                      if Ascii.eqb c ","%char then
                        parse_members fuel' r4 (obj_set k v acc)
                      else if Ascii.eqb c "}"%char then
                        Some (JObj (obj_set k v acc), r4)
                      else None
                  | EmptyString => None
                  end
                else None
            | EmptyString => None
            end
          else None
      | EmptyString => None
      end
  end.

Definition parse (s : string) : option jsval :=
  '(v, rest) ← parse_value (S (String.length s)) s;
  match skip_ws rest with
  | EmptyString => Some v
  | _ => None
  end.
End JSON.

(** ** typematcher

    The combinators of the [typematcher] package that the code uses.  A
    matcher is a predicate on any value. *)
Definition TypeMatcher : Type := jsval -> bool.

(** [val[key]] for a property name: [undefined] when absent. *)
Fixpoint lookup_field (key : string) (fields : list (string * jsval)) : jsval :=
  match fields with
  | [] => JUndefined
  | (k, v) :: fs => if String.eqb k key then v else lookup_field key fs
  end.

Definition prop (key : string) (val : jsval) : jsval :=
  match val with
  | JObj fields => lookup_field key fields
  | _ => JUndefined
  end.

Definition isValue (v : jsval) : TypeMatcher := fun val => bool_decide (val = v).

Definition isObject : TypeMatcher :=
  fun val => match val with JObj _ | JArr _ => true | _ => false end.

(** [hasFields] reaches a field through [val.hasOwnProperty(key)], a call
    of whatever the value holds under the name [hasOwnProperty].  On an
    object with an own property of that name -- never a function in a
    [jsval], nor in what [JSON.parse] builds -- the call is a TypeError
    and the matcher throws: [own_property "hasOwnProperty" val] tells
    when.  [hasFields] is the verdict of the matcher on the other values,
    where the call reaches the method every object inherits. *)
Definition own_property (key : string) (val : jsval) : bool :=
  match val with
  | JObj fields => existsb (fun kv => String.eqb (fst kv) key) fields
  | _ => false
  end.

Definition hasFields (matcher : list (string * TypeMatcher)) : TypeMatcher :=
  fun val => isObject val && forallb (fun km => snd km (prop (fst km) val)) matcher.

Definition isArrayOf (matcher : TypeMatcher) : TypeMatcher :=
  fun val => match val with JArr items => forallb matcher items | _ => false end.

Definition isEither (a b : TypeMatcher) : TypeMatcher := fun val => a val || b val.

Definition isString : TypeMatcher :=
  fun val => match val with JStr _ => true | _ => false end.

Definition isNumber : TypeMatcher :=
  fun val => match val with JNum _ => true | _ => false end.

(** ** operations.ts *)

Module LiveSetOp.
(** The union [LiveSetOp<T>], read as data. *)
Inductive t : Type :=
  | Add (value : jsval)
  | Remove (value : jsval)
  | Clear
  | AddAll (values : list jsval)
  | ReplaceAll (values : list jsval).

Definition isAdd (valueMatch : TypeMatcher) : TypeMatcher :=
  hasFields [("_tag", isValue (JStr "Add")); ("value", valueMatch)].

Definition isRemove (valueMatch : TypeMatcher) : TypeMatcher :=
  hasFields [("_tag", isValue (JStr "Remove")); ("value", valueMatch)].

Definition isClear : TypeMatcher :=
  fun value => hasFields [("_tag", isValue (JStr "Clear"))] value.

Definition isAddAll (valueMatch : TypeMatcher) : TypeMatcher :=
  hasFields [("_tag", isValue (JStr "AddAll")); ("values", isArrayOf valueMatch)].

Definition isReplaceAll (valueMatch : TypeMatcher) : TypeMatcher :=
  hasFields [("_tag", isValue (JStr "ReplaceAll")); ("values", isArrayOf valueMatch)].
End LiveSetOp.

Definition isLiveSetOp (valueMatch : TypeMatcher) : TypeMatcher :=
  isEither
    (LiveSetOp.isAdd valueMatch)
    (isEither
       (LiveSetOp.isRemove valueMatch)
       (isEither
          LiveSetOp.isClear
          (isEither
             (LiveSetOp.isAddAll valueMatch)
             (LiveSetOp.isReplaceAll valueMatch)))).

Definition Add (value : jsval) : jsval :=
  JObj [("_tag", JStr "Add"); ("value", value)].

Definition Remove (value : jsval) : jsval :=
  JObj [("_tag", JStr "Remove"); ("value", value)].

Definition Clear : jsval :=
  JObj [("_tag", JStr "Clear")].

Definition AddAll (values : list jsval) : jsval :=
  JObj [("_tag", JStr "AddAll"); ("values", JArr values)].

Definition ReplaceAll (values : list jsval) : jsval :=
  JObj [("_tag", JStr "ReplaceAll"); ("values", JArr values)].

(** The object each variant of the union is at run time. *)
Definition op_value (o : LiveSetOp.t) : jsval :=
  match o with
  | LiveSetOp.Add value => Add value
  | LiveSetOp.Remove value => Remove value
  | LiveSetOp.Clear => Clear
  | LiveSetOp.AddAll values => AddAll values
  | LiveSetOp.ReplaceAll values => ReplaceAll values
  end.

(** [switch (x._tag)]: strict equality with a string literal. *)
Definition has_tag (tag : string) (x : jsval) : bool :=
  bool_decide (prop "_tag" x = JStr tag).

(** [set.union(xs)] and [Set(xs)] take the items of an array. *)
Definition of_array (values : jsval) : option ISet :=
  match values with
  | JArr items => Some (list_to_set items)
  | _ => None
  end.

(** [apply]: [None] when the [switch] matches no case (the function then
    returns no Set) or when [values] is not a collection.  [add],
    [remove], [union] and [Set(...)] find a member as [Immutable.is]
    does, primitive values by value. *)
Definition apply (set : ISet) (event : jsval) : option ISet :=
  if has_tag "Add" event then Some (set ∪ {[prop "value" event]})
  else if has_tag "Remove" event then Some (set ∖ {[prop "value" event]})
  else if has_tag "Clear" event then Some ∅
  else if has_tag "AddAll" event then
    vs ← of_array (prop "values" event); Some (set ∪ vs)
  else if has_tag "ReplaceAll" event then
    of_array (prop "values" event)
  else None.

(** ** index.ts: the listener made by [RedisLiveSet.subscribe]

    Its closure holds [lastSet]; [calls] records the arguments [cb] was
    invoked with, oldest first. *)
Record subscriber : Type := {
  lastSet : option ISet;
  calls : list ISet
}.

Definition new_subscriber : subscriber := {| lastSet := None; calls := [] |}.

(** The listener body, run by the store after a dispatch.
    [lastSet.equals(newSet)] compares the members as [Immutable.is] does,
    primitive values by value: equality of the two [ISet]s. *)
Definition on_change (newSet : ISet) (l : subscriber) : subscriber :=
  {| lastSet := Some newSet;
     calls := match lastSet l with
              | None => calls l ++ [newSet]
              | Some last =>
                  if bool_decide (last = newSet) then calls l
                  else calls l ++ [newSet]
              end |}.

(** ** store.ts *)

Module FanDir.
Definition isFanIn (tMatcher : TypeMatcher) : TypeMatcher :=
  hasFields [("_tag", isValue (JStr "FanIn")); ("value", tMatcher)].

Definition isFanOut (tMatcher : TypeMatcher) : TypeMatcher :=
  hasFields [("_tag", isValue (JStr "FanOut")); ("value", tMatcher)].
End FanDir.

Definition FanIn (value : jsval) : jsval :=
  JObj [("_tag", JStr "FanIn"); ("value", value)].

Definition FanOut (value : jsval) : jsval :=
  JObj [("_tag", JStr "FanOut"); ("value", value)].

Definition storeAction (action : jsval) : jsval :=
  JObj [("type", action)].

(** The calls made on the two Redis clients. *)
Inductive command : Type :=
  | Sadd (key : string) (members : list (option string))
  | Srem (key : string) (members : list (option string))
  | Del (key : string)
  | MultiDelSadd (key : string) (members : list (option string))
  | Publish (chan : string) (message : option string)
  | Smembers (key : string)
  | Subscribe (chan : string).

(** What the callback of [pub.smembers] receives. *)
Inductive reply : Type :=
  | ReplyErr
  | ReplyValue (value : jsval).

(** The variables a store closes over, the state of its Redux store
    ([s] and [listeners]) and the calls it has made so far. *)
Record state : Type := {
  s : ISet;
  listeners : list subscriber;
  pubIsUp : bool;
  subIsUp : bool;
  fanOutBuffer : list jsval;
  isLoadingSeed : bool;
  fanInBuffer : list jsval;
  sent : list command
}.

#[global] Instance subscriber_eq_dec : EqDecision subscriber.
Proof. solve_decision. Defined.

#[global] Instance command_eq_dec : EqDecision command.
Proof. solve_decision. Defined.

#[global] Instance state_eq_dec : EqDecision state.
Proof. solve_decision. Defined.

Definition set_s (x : ISet) (st : state) : state :=
  {| s := x; listeners := listeners st; pubIsUp := pubIsUp st;
     subIsUp := subIsUp st; fanOutBuffer := fanOutBuffer st;
     isLoadingSeed := isLoadingSeed st; fanInBuffer := fanInBuffer st;
     sent := sent st |}.

Definition set_listeners (x : list subscriber) (st : state) : state :=
  {| s := s st; listeners := x; pubIsUp := pubIsUp st;
     subIsUp := subIsUp st; fanOutBuffer := fanOutBuffer st;
     isLoadingSeed := isLoadingSeed st; fanInBuffer := fanInBuffer st;
     sent := sent st |}.

Definition set_pubIsUp (x : bool) (st : state) : state :=
  {| s := s st; listeners := listeners st; pubIsUp := x;
     subIsUp := subIsUp st; fanOutBuffer := fanOutBuffer st;
     isLoadingSeed := isLoadingSeed st; fanInBuffer := fanInBuffer st;
     sent := sent st |}.

Definition set_subIsUp (x : bool) (st : state) : state :=
  {| s := s st; listeners := listeners st; pubIsUp := pubIsUp st;
     subIsUp := x; fanOutBuffer := fanOutBuffer st;
     isLoadingSeed := isLoadingSeed st; fanInBuffer := fanInBuffer st;
     sent := sent st |}.

Definition set_fanOutBuffer (x : list jsval) (st : state) : state :=
  {| s := s st; listeners := listeners st; pubIsUp := pubIsUp st;
     subIsUp := subIsUp st; fanOutBuffer := x;
     isLoadingSeed := isLoadingSeed st; fanInBuffer := fanInBuffer st;
     sent := sent st |}.

Definition set_isLoadingSeed (x : bool) (st : state) : state :=
  {| s := s st; listeners := listeners st; pubIsUp := pubIsUp st;
     subIsUp := subIsUp st; fanOutBuffer := fanOutBuffer st;
     isLoadingSeed := x; fanInBuffer := fanInBuffer st;
     sent := sent st |}.

Definition set_fanInBuffer (x : list jsval) (st : state) : state :=
  {| s := s st; listeners := listeners st; pubIsUp := pubIsUp st;
     subIsUp := subIsUp st; fanOutBuffer := fanOutBuffer st;
     isLoadingSeed := isLoadingSeed st; fanInBuffer := x;
     sent := sent st |}.

Definition call (cmds : list command) (st : state) : state :=
  {| s := s st; listeners := listeners st; pubIsUp := pubIsUp st;
     subIsUp := subIsUp st; fanOutBuffer := fanOutBuffer st;
     isLoadingSeed := isLoadingSeed st; fanInBuffer := fanInBuffer st;
     sent := sent st ++ cmds |}.

(** Redux runs the listeners after the reducer has returned. *)
Definition notify (st : state) : state :=
  set_listeners (map (on_change (s st)) (listeners st)) st.

(** [forEach] over handlers that may throw: the first exception ends it. *)
Fixpoint forEachM {A S : Type} (f : S -> A -> option S) (l : list A) (st : S)
  : option S :=
  match l with
  | [] => Some st
  | x :: l' => st' ← f st x; forEachM f l' st'
  end.

(** [values.map(f)], a TypeError when [values] is no array. *)
Definition array_map {B : Type} (f : jsval -> B) (values : jsval) : option (list B) :=
  match values with
  | JArr items => Some (map f items)
  | _ => None
  end.

(** The arguments of [createLiveStore] that its closures keep. *)
Record config : Type := {
  cfg_key : string;
  cfg_typeMatcher : TypeMatcher;
  cfg_updatesChan : string
}.

Section createLiveStore.
Variable cfg : config.
#[local] Abbreviation key := (cfg_key cfg).
#[local] Abbreviation typeMatcher := (cfg_typeMatcher cfg).
#[local] Abbreviation updatesChan := (cfg_updatesChan cfg).

Definition isOp : TypeMatcher := isLiveSetOp typeMatcher.
Definition isFanOut : TypeMatcher := FanDir.isFanOut isOp.
Definition isFanIn : TypeMatcher := FanDir.isFanIn isOp.

(** The [switch] of [fanOut]: the write to the shared store.  A tag
    outside the five writes nothing. *)
Definition store_write (op : jsval) : option (list command) :=
  if has_tag "Add" op then
    Some [Sadd key [JSON.stringify (prop "value" op)]]
  else if has_tag "Remove" op then
    Some [Srem key [JSON.stringify (prop "value" op)]]
  else if has_tag "Clear" op then
    Some [Del key]
  else if has_tag "AddAll" op then
    ms ← array_map JSON.stringify (prop "values" op); Some [Sadd key ms]
  else if has_tag "ReplaceAll" op then
    ms ← array_map JSON.stringify (prop "values" op); Some [MultiDelSadd key ms]
  else Some [].

(** Forwarding one operation: the store write, then the broadcast. *)
Definition forward (op : jsval) : option (list command) :=
  cmds ← store_write op;
  Some (cmds ++ [Publish updatesChan (JSON.stringify op)]).

(** [fanOut] runs inside the reducer.  There [flushFanOutBuffer] on a
    buffer that is not empty calls [store.dispatch], which Redux
    refuses with "Reducers may not dispatch actions": the call throws.
    ([pubIsUp_buffer_empty] below: no event sequence leads there.) *)
Definition fanOut (op : jsval) (st : state) : option state :=
  if pubIsUp st then
    match fanOutBuffer st with
    | _ :: _ => None
    | [] => cmds ← forward op; Some (call cmds st)
    end
  else Some (set_fanOutBuffer (fanOutBuffer st ++ [op]) st).

(** The reducer given to [createStore]; [fanOut] is its side effect. *)
Definition reducer (st : state) (action : jsval) : option state :=
  let type := prop "type" action in
  if isOp type then
    newS ← apply (s st) type;
    st' ← fanOut type st;
    Some (set_s newS st')
  else if isFanIn type then
    newS ← apply (s st) (prop "value" type);
    Some (set_s newS st)
  else if isFanOut type then
    fanOut (prop "value" type) st
  else Some st.

(** Redux [store.dispatch]: an action needs a defined [type]; the
    reducer runs, then every listener. *)
Definition dispatch (st : state) (action : jsval) : option state :=
  match prop "type" action with
  | JUndefined => None
  | _ => st' ← reducer st action; Some (notify st')
  end.

Definition flushFanOutBuffer (st : state) : option state :=
  let buff := fanOutBuffer st in
  forEachM (fun st op => dispatch st (storeAction (FanOut op)))
    buff (set_fanOutBuffer [] st).

Definition flushFanInBuffer (st : state) : option state :=
  let buff := fanInBuffer st in
  forEachM (fun st op => dispatch st (storeAction (FanIn op)))
    buff (set_fanInBuffer [] st).

Definition fanIn (op : jsval) (st : state) : option state :=
  if isLoadingSeed st then
    Some (set_fanInBuffer (fanInBuffer st ++ [op]) st)
  else
    st' ← match fanInBuffer st with
          | _ :: _ => flushFanInBuffer st
          | [] => Some st
          end;
    dispatch st' (storeAction (FanIn op)).

(** *** The event handlers *)

(** ["reconnecting"], ["error"], ["end"] on [pub], and on [sub]. *)
Definition on_pub_fail (st : state) : state := set_pubIsUp false st.
Definition on_sub_fail (st : state) : state := set_subIsUp false st.

(** ["ready"] on [pub]. *)
Definition on_pub_ready (st : state) : option state :=
  flushFanOutBuffer (set_pubIsUp true st).

(** ["subscribe"] on [sub]: the seed load starts. *)
Definition on_subscribe (ch : string) (st : state) : state :=
  if String.eqb ch updatesChan then
    call [Smembers key] (set_isLoadingSeed true (set_subIsUp true st))
  else st.

Definition string_of (item : jsval) : string :=
  match item with JStr x => x | _ => EmptyString end.

(** The first half of the [smembers] callback: the baseline. *)
Definition seed_baseline (r : reply) (st : state) : option state :=
  match r with
  | ReplyErr => Some st
  | ReplyValue value =>
      newSet ← (if isArrayOf isString value then
                  items ← array_map string_of value;
                  mapM JSON.parse items
                else Some []);
      dispatch st (storeAction (FanIn (ReplaceAll newSet)))
  end.

(** The callback of [pub.smembers]. *)
Definition on_smembers (r : reply) (st : state) : option state :=
  st1 ← seed_baseline r st;
  st2 ← flushFanInBuffer st1;
  Some (set_isLoadingSeed false st2).

(** ["message"] on [sub].  [op] is the one value of the store that comes
    from outside, and [isOp(op)] starts with [hasFields] on it: the
    handler throws, as [JSON.parse] makes it throw on a text that is no
    JSON, when [op] has an own property [hasOwnProperty]. *)
Definition on_message (ch message : string) (st : state) : option state :=
  if String.eqb ch updatesChan then
    op ← JSON.parse message;
    if own_property "hasOwnProperty" op then None
    else if isOp op then dispatch st (storeAction (FanIn op)) else Some st
  else Some st.

(** The store as [createLiveStore] returns it: [createStore] has run the
    reducer on Redux's own first action, which no recognizer accepts, and
    [sub.subscribe] has been called. *)
Definition createLiveStore : state :=
  {| s := ∅; listeners := []; pubIsUp := false; subIsUp := false;
     fanOutBuffer := []; isLoadingSeed := false; fanInBuffer := [];
     sent := [Subscribe updatesChan] |}.
End createLiveStore.

(** ** index.ts: RedisLiveSet

    A callback given to [onMembersInit] is named by a number;
    [initCalls] records each invocation with its argument, oldest first. *)
Record RedisLiveSet : Type := {
  _store : state;
  _membersInitCallbacks : list nat;
  _membersInitDone : bool;
  initCalls : list (nat * ISet)
}.

#[global] Instance RedisLiveSet_eq_dec : EqDecision RedisLiveSet.
Proof. solve_decision. Defined.

Definition with_store (st : state) (ls : RedisLiveSet) : RedisLiveSet :=
  {| _store := st; _membersInitCallbacks := _membersInitCallbacks ls;
     _membersInitDone := _membersInitDone ls; initCalls := initCalls ls |}.

(** The events a live set reacts to: the methods the application calls,
    and what the two connections emit. *)
Inductive event : Type :=
  | CallAdd (value : jsval)
  | CallRemove (value : jsval)
  | CallAddAll (values : list jsval)
  | CallClear
  | CallReplaceAll (values : list jsval)
  | CallSubscribe
  | CallOnMembersInit (cb : nat)
  | PubReady
  | PubFail
  | SubFail
  | SubSubscribed (ch : string)
  | SmembersReply (r : reply)
  | SubMessage (ch message : string).

Section RedisLiveSet.
Variable cfg : config.

Definition onMembersLoaded (ls : RedisLiveSet) : RedisLiveSet :=
  if _membersInitDone ls then ls
  else
    let s := s (_store ls) in
    {| _store := _store ls;
       _membersInitCallbacks := [];
       _membersInitDone := true;
       initCalls := initCalls ls ++ map (fun cb => (cb, s)) (_membersInitCallbacks ls) |}.

(** The constructor: the store, no callback, members not loaded. *)
Definition new_RedisLiveSet : RedisLiveSet :=
  {| _store := createLiveStore cfg; _membersInitCallbacks := [];
     _membersInitDone := false; initCalls := [] |}.

Definition store_dispatch (type : jsval) (ls : RedisLiveSet) : option RedisLiveSet :=
  st ← dispatch cfg (_store ls) (JObj [("type", type)]);
  Some (with_store st ls).

Definition add (value : jsval) := store_dispatch (Add value).
Definition remove (value : jsval) := store_dispatch (Remove value).
Definition addAll (values : list jsval) := store_dispatch (AddAll values).
Definition clear := store_dispatch Clear.
Definition replaceAll (values : list jsval) := store_dispatch (ReplaceAll values).

Definition subscribe (ls : RedisLiveSet) : RedisLiveSet :=
  with_store
    (set_listeners (listeners (_store ls) ++ [new_subscriber]) (_store ls)) ls.

Definition onMembersInit (cb : nat) (ls : RedisLiveSet) : RedisLiveSet :=
  if _membersInitDone ls then
    {| _store := _store ls;
       _membersInitCallbacks := _membersInitCallbacks ls;
       _membersInitDone := _membersInitDone ls;
       initCalls := initCalls ls ++ [(cb, s (_store ls))] |}
  else
    {| _store := _store ls;
       _membersInitCallbacks := _membersInitCallbacks ls ++ [cb];
       _membersInitDone := _membersInitDone ls;
       initCalls := initCalls ls |}.

(** Modelled from the spec: the version of [createLiveStore] that takes
    [onMembersLoaded] as its sixth argument is not among the sources;
    following "once it completes, with the post-seed Set State" it is
    taken to call [onMembersLoaded] at the end of the [smembers]
    callback, when the seed load is over and the fetch has given the
    members.  After a failed fetch no member was loaded and nothing is
    called. *)
Definition seed_load_done (r : reply) (ls : RedisLiveSet) : option RedisLiveSet :=
  st ← on_smembers cfg r (_store ls);
  match r with
  | ReplyErr => Some (with_store st ls)
  | ReplyValue _ => Some (onMembersLoaded (with_store st ls))
  end.

(** One event; [None] when its handler throws. *)
Definition step (ls : RedisLiveSet) (e : event) : option RedisLiveSet :=
  match e with
  | CallAdd value => add value ls
  | CallRemove value => remove value ls
  | CallAddAll values => addAll values ls
  | CallClear => clear ls
  | CallReplaceAll values => replaceAll values ls
  | CallSubscribe => Some (subscribe ls)
  | CallOnMembersInit cb => Some (onMembersInit cb ls)
  | PubReady => st ← on_pub_ready cfg (_store ls); Some (with_store st ls)
  | PubFail => Some (with_store (on_pub_fail (_store ls)) ls)
  | SubFail => Some (with_store (on_sub_fail (_store ls)) ls)
  | SubSubscribed ch => Some (with_store (on_subscribe cfg ch (_store ls)) ls)
  | SmembersReply r => seed_load_done r ls
  | SubMessage ch message =>
      st ← on_message cfg ch message (_store ls); Some (with_store st ls)
  end.

Definition run (ls : RedisLiveSet) (evs : list event) : option RedisLiveSet :=
  forEachM step evs ls.
End RedisLiveSet.

Definition createLiveSet (key : string) (typeMatcher : TypeMatcher)
    (updatesChan : string) : RedisLiveSet :=
  new_RedisLiveSet
    {| cfg_key := key; cfg_typeMatcher := typeMatcher;
       cfg_updatesChan := updatesChan |}.

(** The two shorthands of [index.ts]. *)
Definition createStringsLiveSet (key updatesChan : string) : RedisLiveSet :=
  createLiveSet key isString updatesChan.

Definition createNumbersLiveSet (key updatesChan : string) : RedisLiveSet :=
  createLiveSet key isNumber updatesChan.

(** * Properties *)

(** ** Matchers and tags *)

Lemma isValue_str (t : string) (v : jsval) :
  isValue (JStr t) v = match v with JStr x => String.eqb x t | _ => false end.
Proof.
  unfold isValue.
  destruct v; try (apply bool_decide_eq_false; congruence).
  destruct (String.eqb_spec s0 t) as [->|N].
  - apply bool_decide_eq_true. reflexivity.
  - apply bool_decide_eq_false. congruence.
Qed.

Lemma has_tag_eq (t : string) (x : jsval) :
  has_tag t x = match prop "_tag" x with JStr k => String.eqb k t | _ => false end.
Proof. unfold has_tag. apply (isValue_str t (prop "_tag" x)). Qed.

(** The recognizer read by tag: what it asks of each variant. *)
Definition op_shape (tm : TypeMatcher) (v : jsval) : bool :=
  match prop "_tag" v with
  | JStr t =>
      if String.eqb t "Add" then tm (prop "value" v)
      else if String.eqb t "Remove" then tm (prop "value" v)
      else if String.eqb t "Clear" then true
      else if String.eqb t "AddAll" then isArrayOf tm (prop "values" v)
      else if String.eqb t "ReplaceAll" then isArrayOf tm (prop "values" v)
      else false
  | _ => false
  end.

Ltac case_tag t :=
  repeat match goal with
    | |- context [String.eqb t ?lit] =>
        destruct (String.eqb_spec t lit) as [->|?]; simpl
    end.

Lemma isLiveSetOp_shape (tm : TypeMatcher) (v : jsval) :
  isLiveSetOp tm v = op_shape tm v.
Proof.
  unfold isLiveSetOp, isEither, LiveSetOp.isAdd, LiveSetOp.isRemove,
    LiveSetOp.isClear, LiveSetOp.isAddAll, LiveSetOp.isReplaceAll,
    hasFields, op_shape.
  simpl. rewrite !isValue_str.
  destruct v; simpl; try reflexivity.
  destruct (lookup_field "_tag" fields); simpl; try reflexivity.
  case_tag s0; rewrite ?andb_true_r, ?orb_false_r; reflexivity.
Qed.

Lemma fan_shape (tag : string) (tm : TypeMatcher) (v : jsval) :
  hasFields [("_tag", isValue (JStr tag)); ("value", tm)] v
  = has_tag tag v && tm (prop "value" v).
Proof.
  unfold hasFields. simpl. rewrite isValue_str, has_tag_eq, andb_true_r.
  destruct v; simpl; reflexivity.
Qed.

(** ** [apply] *)

(** An object read back as a variant, by the fields [apply] reads. *)
Definition view (v : jsval) : option LiveSetOp.t :=
  if has_tag "Add" v then Some (LiveSetOp.Add (prop "value" v))
  else if has_tag "Remove" v then Some (LiveSetOp.Remove (prop "value" v))
  else if has_tag "Clear" v then Some LiveSetOp.Clear
  else if has_tag "AddAll" v then
    match prop "values" v with
    | JArr items => Some (LiveSetOp.AddAll items)
    | _ => None
    end
  else if has_tag "ReplaceAll" v then
    match prop "values" v with
    | JArr items => Some (LiveSetOp.ReplaceAll items)
    | _ => None
    end
  else None.

Definition denote (set : ISet) (o : LiveSetOp.t) : ISet :=
  match o with
  | LiveSetOp.Add value => set ∪ {[value]}
  | LiveSetOp.Remove value => set ∖ {[value]}
  | LiveSetOp.Clear => ∅
  | LiveSetOp.AddAll values => set ∪ list_to_set values
  | LiveSetOp.ReplaceAll values => list_to_set values
  end.

(** The values a variant embeds. *)
Definition op_values (o : LiveSetOp.t) : list jsval :=
  match o with
  | LiveSetOp.Add value | LiveSetOp.Remove value => [value]
  | LiveSetOp.Clear => []
  | LiveSetOp.AddAll values | LiveSetOp.ReplaceAll values => values
  end.

Lemma apply_view (set : ISet) (v : jsval) : apply set v = denote set <$> view v.
Proof.
  unfold apply, view.
  repeat (destruct (has_tag _ v); [try reflexivity|]); try reflexivity.
  - destruct (prop "values" v); reflexivity.
  - destruct (prop "values" v); reflexivity.
Qed.

Lemma view_op_value (o : LiveSetOp.t) : view (op_value o) = Some o.
Proof. destruct o; unfold view; rewrite !has_tag_eq; reflexivity. Qed.

Lemma apply_op_value (set : ISet) (o : LiveSetOp.t) :
  apply set (op_value o) = Some (denote set o).
Proof. rewrite apply_view, view_op_value. reflexivity. Qed.

Lemma isLiveSetOp_op_value (tm : TypeMatcher) (o : LiveSetOp.t) :
  isLiveSetOp tm (op_value o) = forallb tm (op_values o).
Proof.
  rewrite isLiveSetOp_shape.
  destruct o; unfold op_shape; simpl; rewrite ?andb_true_r; reflexivity.
Qed.

Lemma isLiveSetOp_view (tm : TypeMatcher) (v : jsval) :
  isLiveSetOp tm v = true ->
  exists o, view v = Some o /\ forallb tm (op_values o) = true.
Proof.
  rewrite isLiveSetOp_shape. unfold op_shape, view. rewrite !has_tag_eq.
  destruct (prop "_tag" v) as [| | | |t| |]; try discriminate.
  case_tag t; try discriminate; intros H.
  - eexists; split; [reflexivity|]. simpl. rewrite H. reflexivity.
  - eexists; split; [reflexivity|]. simpl. rewrite H. reflexivity.
  - eexists; split; reflexivity.
  - destruct (prop "values" v); try discriminate.
    eexists; split; [reflexivity|]. exact H.
  - destruct (prop "values" v); try discriminate.
    eexists; split; [reflexivity|]. exact H.
Qed.

Lemma isLiveSetOp_apply (tm : TypeMatcher) (set : ISet) (v : jsval) :
  isLiveSetOp tm v = true -> exists set', apply set v = Some set'.
Proof.
  intros H. destruct (isLiveSetOp_view tm v H) as (o & Hv & _).
  rewrite apply_view, Hv. eexists. reflexivity.
Qed.

(** C1. [apply] returns a Set for each of the five variants, whatever the
    state: [Add] the union with the value (the same Set when it is already
    a member), [Remove] the difference (the same Set when it is absent),
    [Clear] the empty Set, [AddAll] the union with the values, [ReplaceAll]
    the values without duplicates, the same from every state.  The values
    of the operation are primitive: those an Immutable.js Set takes for
    the same member when they are equal. *)
Theorem apply_five_variants (set : ISet) (o : LiveSetOp.t) :
  Forall (fun v => primitive v = true) (op_values o) ->
  exists set',
    apply set (op_value o) = Some set' /\
    match o with
    | LiveSetOp.Add v =>
        (forall x, x ∈ set' <-> x ∈ set \/ x = v) /\ (v ∈ set -> set' = set)
    | LiveSetOp.Remove v =>
        (forall x, x ∈ set' <-> x ∈ set /\ x <> v) /\ (v ∉ set -> set' = set)
    | LiveSetOp.Clear => set' = ∅
    | LiveSetOp.AddAll vs => forall x, x ∈ set' <-> x ∈ set \/ x ∈ vs
    | LiveSetOp.ReplaceAll vs =>
        (forall x, x ∈ set' <-> x ∈ vs) /\
        elements set' ≡ₚ remove_dups vs /\
        (forall set0, apply set0 (op_value o) = Some set')
    end.
Proof.
  intros _. exists (denote set o). split; [apply apply_op_value|].
  destruct o as [v|v| |vs|vs]; simpl.
  - split.
    + intros x. rewrite elem_of_union, elem_of_singleton. reflexivity.
    + intros Hv. apply set_eq. intros x.
      rewrite elem_of_union, elem_of_singleton.
      split; [intros [Hx| ->]; assumption|auto].
  - split.
    + intros x. rewrite elem_of_difference, elem_of_singleton. reflexivity.
    + intros Hv. apply set_eq. intros x.
      rewrite elem_of_difference, elem_of_singleton.
      split; [intros [Hx _]; assumption|].
      intros Hx. split; [assumption|]. intros ->. contradiction.
  - reflexivity.
  - set_solver.
  - split; [set_solver|]. split.
    + apply NoDup_Permutation;
        [apply NoDup_elements | apply NoDup_remove_dups |].
      intros x. rewrite elem_of_elements, elem_of_list_to_set, elem_of_remove_dups.
      reflexivity.
    + intros set0. apply (apply_op_value set0 (LiveSetOp.ReplaceAll vs)).
Qed.

(** ** The reducer and [dispatch] *)

Section store_properties.
Variable cfg : config.
#[local] Abbreviation key := (cfg_key cfg).
#[local] Abbreviation typeMatcher := (cfg_typeMatcher cfg).
#[local] Abbreviation updatesChan := (cfg_updatesChan cfg).

Lemma has_tag_unique (t t' : string) (v : jsval) :
  has_tag t v = true -> t <> t' -> has_tag t' v = false.
Proof.
  rewrite !has_tag_eq. destruct (prop "_tag" v); try discriminate.
  intros ->%String.eqb_eq N. apply String.eqb_neq. exact N.
Qed.

Lemma isFanOut_eq (v : jsval) :
  isFanOut cfg v = has_tag "FanOut" v && isOp cfg (prop "value" v).
Proof. apply fan_shape. Qed.

Lemma isFanIn_eq (v : jsval) :
  isFanIn cfg v = has_tag "FanIn" v && isOp cfg (prop "value" v).
Proof. apply fan_shape. Qed.

(** An operation carries one of the five tags, so neither wrapper tag. *)
Lemma isOp_not_fan (t : string) (v : jsval) :
  has_tag t v = true -> t = "FanIn" \/ t = "FanOut" -> isOp cfg v = false.
Proof.
  unfold isOp. rewrite isLiveSetOp_shape, has_tag_eq. unfold op_shape.
  destruct (prop "_tag" v); try discriminate.
  intros ->%String.eqb_eq [->| ->]; reflexivity.
Qed.

(** The three recognizers of the reducer exclude one another. *)
Lemma isFanOut_exclusive (v : jsval) :
  isFanOut cfg v = true -> isOp cfg v = false /\ isFanIn cfg v = false.
Proof.
  rewrite isFanOut_eq, isFanIn_eq. intros [Ht _]%andb_true_iff. split.
  - apply (isOp_not_fan "FanOut"); auto.
  - rewrite (has_tag_unique "FanOut" "FanIn" v Ht); [reflexivity|discriminate].
Qed.

Lemma isFanIn_exclusive (v : jsval) :
  isFanIn cfg v = true -> isOp cfg v = false.
Proof.
  rewrite isFanIn_eq. intros [Ht _]%andb_true_iff.
  apply (isOp_not_fan "FanIn"); auto.
Qed.

Lemma isFanOut_FanOut (v : jsval) : isFanOut cfg (FanOut v) = isOp cfg v.
Proof. rewrite isFanOut_eq, has_tag_eq. reflexivity. Qed.

Lemma isFanIn_FanIn (v : jsval) : isFanIn cfg (FanIn v) = isOp cfg v.
Proof. rewrite isFanIn_eq, has_tag_eq. reflexivity. Qed.

Lemma isOp_FanOut (v : jsval) : isOp cfg (FanOut v) = false.
Proof. apply (isOp_not_fan "FanOut"); [rewrite has_tag_eq; reflexivity|auto]. Qed.

Lemma isOp_FanIn (v : jsval) : isOp cfg (FanIn v) = false.
Proof. apply (isOp_not_fan "FanIn"); [rewrite has_tag_eq; reflexivity|auto]. Qed.

Lemma isFanIn_FanOut (v : jsval) : isFanIn cfg (FanOut v) = false.
Proof. rewrite isFanIn_eq, has_tag_eq. reflexivity. Qed.

Lemma isOp_defined (v : jsval) : isOp cfg v = true -> v <> JUndefined.
Proof. intros H ->. discriminate H. Qed.

Lemma isOp_apply (set : ISet) (v : jsval) :
  isOp cfg v = true -> exists set', apply set v = Some set'.
Proof. apply isLiveSetOp_apply. Qed.

(** A recognized operation is always written and published. *)
Lemma isOp_forward (v : jsval) :
  isOp cfg v = true -> exists cmds, forward cfg v = Some cmds.
Proof.
  unfold isOp, forward, store_write. rewrite isLiveSetOp_shape.
  unfold op_shape. rewrite !has_tag_eq.
  destruct (prop "_tag" v) as [| | | |t| |]; try discriminate.
  case_tag t; try discriminate; intros H; try (eexists; reflexivity).
  - destruct (prop "values" v); try discriminate. eexists; reflexivity.
  - destruct (prop "values" v); try discriminate. eexists; reflexivity.
Qed.

Lemma dispatch_storeAction (st : state) (type : jsval) :
  type <> JUndefined ->
  dispatch cfg st (storeAction type)
  = st' ← reducer cfg st (storeAction type); Some (notify st').
Proof. intros N. unfold dispatch. simpl. destruct type; congruence. Qed.

(** The reducer on each of its four action shapes. *)
Lemma reducer_op (st : state) (v : jsval) :
  isOp cfg v = true ->
  reducer cfg st (storeAction v)
  = newS ← apply (s st) v; st' ← fanOut cfg v st; Some (set_s newS st').
Proof. intros H. unfold reducer. simpl. rewrite H. reflexivity. Qed.

Lemma reducer_FanIn (st : state) (v : jsval) :
  isOp cfg v = true ->
  reducer cfg st (storeAction (FanIn v))
  = newS ← apply (s st) v; Some (set_s newS st).
Proof.
  intros H. unfold reducer.
  change (prop "type" (storeAction (FanIn v))) with (FanIn v).
  rewrite isOp_FanIn, isFanIn_FanIn, H. reflexivity.
Qed.

Lemma reducer_FanOut (st : state) (v : jsval) :
  isOp cfg v = true ->
  reducer cfg st (storeAction (FanOut v)) = fanOut cfg v st.
Proof.
  intros H. unfold reducer.
  change (prop "type" (storeAction (FanOut v))) with (FanOut v).
  rewrite isOp_FanOut, isFanIn_FanOut, isFanOut_FanOut, H. reflexivity.
Qed.

Lemma fanOut_s (v : jsval) (st st' : state) :
  fanOut cfg v st = Some st' -> s st' = s st /\ listeners st' = listeners st.
Proof.
  unfold fanOut. destruct (pubIsUp st).
  - destruct (fanOutBuffer st); [|discriminate].
    destruct (forward cfg v); [|discriminate].
    intros [= <-]. split; reflexivity.
  - intros [= <-]. split; reflexivity.
Qed.

Lemma fanOut_total (v : jsval) (st : state) :
  isOp cfg v = true ->
  (pubIsUp st = true -> fanOutBuffer st = []) ->
  exists st', fanOut cfg v st = Some st'.
Proof.
  intros Hv Hinv. unfold fanOut. destruct (pubIsUp st).
  - rewrite (Hinv eq_refl). destruct (isOp_forward v Hv) as [cmds ->].
    eexists; reflexivity.
  - eexists; reflexivity.
Qed.

(** C9. On an action that is a FanOut request, or that none of the three
    recognizers accepts, the reducer returns the Set it was given, and so
    does a dispatch; it does return whenever the outbound buffer is empty
    while the publish side is up.  An action that changes the Set is
    therefore a local operation or a FanIn one. *)
Theorem reducer_frame (st : state) (action : jsval) :
  isFanOut cfg (prop "type" action) = true \/
  (isOp cfg (prop "type" action) = false /\
   isFanIn cfg (prop "type" action) = false /\
   isFanOut cfg (prop "type" action) = false) ->
  (forall st', reducer cfg st action = Some st' -> s st' = s st) /\
  (forall st', dispatch cfg st action = Some st' -> s st' = s st) /\
  ((pubIsUp st = true -> fanOutBuffer st = []) ->
   exists st', reducer cfg st action = Some st') /\
  (isOp cfg (prop "type" action) = false /\
   isFanIn cfg (prop "type" action) = false).
Proof.
  intros Hshape.
  assert (Hno : isOp cfg (prop "type" action) = false /\
                isFanIn cfg (prop "type" action) = false).
  { destruct Hshape as [Hout|(H1 & H2 & _)]; [|auto].
    apply isFanOut_exclusive, Hout. }
  destruct Hno as [Hop Hin].
  assert (Hred : forall st', reducer cfg st action = Some st' -> s st' = s st).
  { intros st'. unfold reducer. rewrite Hop, Hin.
    destruct (isFanOut cfg (prop "type" action)).
    - intros H. apply (fanOut_s _ _ _ H).
    - intros [= <-]. reflexivity. }
  split; [exact Hred|]. split; [|split; [|auto]].
  - intros st'. unfold dispatch.
    destruct (prop "type" action); try discriminate;
      (destruct (reducer cfg st action) as [st1|] eqn:E; [|discriminate]);
      intros [= <-]; apply (Hred st1 eq_refl).
  - intros Hinv. unfold reducer. rewrite Hop, Hin.
    destruct (isFanOut cfg (prop "type" action)) eqn:Hout.
    + rewrite isFanOut_eq in Hout. apply andb_true_iff in Hout as [_ Hv].
      apply (fanOut_total _ _ Hv Hinv).
    + eexists; reflexivity.
Qed.

(** *** The outbound buffer *)

(** What every reachable store satisfies: nothing is buffered while the
    publish side is up, the outbound buffer holds operations, and the
    inbound buffer is empty. *)
Definition buffers_ok (st : state) : Prop :=
  (pubIsUp st = true -> fanOutBuffer st = []) /\
  Forall (fun v => isOp cfg v = true) (fanOutBuffer st) /\
  fanInBuffer st = [].

Lemma fanOut_buffers_ok (v : jsval) (st st' : state) :
  isOp cfg v = true -> buffers_ok st ->
  fanOut cfg v st = Some st' -> buffers_ok st'.
Proof.
  intros Hv (Hup & Hall & Hin). unfold fanOut.
  destruct (pubIsUp st) eqn:Ep.
  - destruct (fanOutBuffer st) eqn:Eb; [|discriminate].
    destruct (forward cfg v); [|discriminate].
    intros [= <-]. unfold buffers_ok. simpl. rewrite Eb. auto.
  - intros [= <-]. unfold buffers_ok. simpl. rewrite Ep.
    split; [discriminate|]. split; [|exact Hin].
    apply Forall_app. split; [exact Hall|]. constructor; [exact Hv|constructor].
Qed.

Lemma reducer_buffers_ok (st st' : state) (action : jsval) :
  buffers_ok st -> reducer cfg st action = Some st' -> buffers_ok st'.
Proof.
  intros Hok. unfold reducer.
  destruct (isOp cfg (prop "type" action)) eqn:Hop.
  - destruct (apply (s st) (prop "type" action)) as [newS|]; [|discriminate].
    simpl. destruct (fanOut cfg (prop "type" action) st) as [st1|] eqn:E;
      [|discriminate].
    intros [= <-]. apply (fanOut_buffers_ok _ _ _ Hop Hok E).
  - destruct (isFanIn cfg (prop "type" action)).
    + destruct (apply (s st) (prop "value" (prop "type" action)));
        [|discriminate].
      intros [= <-]. exact Hok.
    + destruct (isFanOut cfg (prop "type" action)) eqn:Hout.
      * rewrite isFanOut_eq in Hout. apply andb_true_iff in Hout as [_ Hv].
        intros E. apply (fanOut_buffers_ok _ _ _ Hv Hok E).
      * intros [= <-]. exact Hok.
Qed.

Lemma dispatch_buffers_ok (st st' : state) (action : jsval) :
  buffers_ok st -> dispatch cfg st action = Some st' -> buffers_ok st'.
Proof.
  intros Hok. unfold dispatch.
  destruct (prop "type" action); try discriminate;
    (destruct (reducer cfg st action) as [st1|] eqn:E; [|discriminate]);
    intros [= <-]; apply (reducer_buffers_ok _ _ _ Hok E).
Qed.

Lemma forEachM_dispatch_buffers_ok (wrap : jsval -> jsval) (l : list jsval)
    (st st' : state) :
  buffers_ok st ->
  forEachM (fun st op => dispatch cfg st (storeAction (wrap op))) l st = Some st' ->
  buffers_ok st'.
Proof.
  revert st. induction l as [|x l IH]; intros st Hok; simpl.
  - intros [= <-]. exact Hok.
  - destruct (dispatch cfg st (storeAction (wrap x))) as [st1|] eqn:E;
      [|discriminate].
    simpl. apply IH. apply (dispatch_buffers_ok _ _ _ Hok E).
Qed.

(** A local operation while the publish side is down: applied to the
    Set, appended to the buffer, nothing sent. *)
Lemma dispatch_op_down (st : state) (v : jsval) :
  isOp cfg v = true -> pubIsUp st = false ->
  exists set',
    apply (s st) v = Some set' /\
    dispatch cfg st (storeAction v)
    = Some (notify (set_s set' (set_fanOutBuffer (fanOutBuffer st ++ [v]) st))).
Proof.
  intros Hv Hdown. destruct (isOp_apply (s st) v Hv) as [set' Ha].
  exists set'. split; [exact Ha|].
  rewrite dispatch_storeAction by (apply isOp_defined, Hv).
  rewrite reducer_op by exact Hv. rewrite Ha. simpl.
  unfold fanOut. rewrite Hdown. reflexivity.
Qed.

(** A local operation while the publish side is up and nothing is
    buffered: applied to the Set and forwarded at once. *)
Lemma dispatch_op_up (st : state) (v : jsval) :
  isOp cfg v = true -> pubIsUp st = true -> fanOutBuffer st = [] ->
  exists set' cmds,
    apply (s st) v = Some set' /\ forward cfg v = Some cmds /\
    dispatch cfg st (storeAction v) = Some (notify (set_s set' (call cmds st))).
Proof.
  intros Hv Hup Hb. destruct (isOp_apply (s st) v Hv) as [set' Ha].
  destruct (isOp_forward v Hv) as [cmds Hf].
  exists set', cmds. split; [exact Ha|]. split; [exact Hf|].
  rewrite dispatch_storeAction by (apply isOp_defined, Hv).
  rewrite reducer_op by exact Hv. rewrite Ha. simpl.
  unfold fanOut. rewrite Hup, Hb, Hf. reflexivity.
Qed.

(** A FanOut request while the publish side is up and nothing is
    buffered: forwarded, the Set untouched. *)
Lemma dispatch_FanOut_up (st : state) (v : jsval) :
  isOp cfg v = true -> pubIsUp st = true -> fanOutBuffer st = [] ->
  exists cmds,
    forward cfg v = Some cmds /\
    dispatch cfg st (storeAction (FanOut v)) = Some (notify (call cmds st)).
Proof.
  intros Hv Hup Hb. destruct (isOp_forward v Hv) as [cmds Hf].
  exists cmds. split; [exact Hf|].
  rewrite dispatch_storeAction by discriminate.
  rewrite reducer_FanOut by exact Hv.
  unfold fanOut. rewrite Hup, Hb, Hf. reflexivity.
Qed.

(** Local operations issued one after the other. *)
Definition dispatch_all (vs : list jsval) (st : state) : option state :=
  forEachM (fun st v => dispatch cfg st (storeAction v)) vs st.

Lemma dispatch_all_down (vs : list jsval) (st : state) :
  Forall (fun v => isOp cfg v = true) vs -> pubIsUp st = false ->
  exists st1,
    dispatch_all vs st = Some st1 /\
    fanOutBuffer st1 = fanOutBuffer st ++ vs /\
    sent st1 = sent st /\ pubIsUp st1 = false.
Proof.
  intros Hall. revert st.
  induction Hall as [|v vs Hv _ IH]; intros st Hdown.
  - exists st. rewrite app_nil_r. auto.
  - destruct (dispatch_op_down st v Hv Hdown) as (set' & _ & Hd).
    unfold dispatch_all. simpl. rewrite Hd. simpl.
    destruct (IH (notify (set_s set' (set_fanOutBuffer (fanOutBuffer st ++ [v]) st)))
                Hdown) as (st1 & H1 & H2 & H3 & H4).
    exists st1. split; [exact H1|]. split; [|auto].
    rewrite H2. simpl. rewrite <- app_assoc. reflexivity.
Qed.

(** The loop of [flushFanOutBuffer], once the buffer variable is reset. *)
Lemma flush_loop (buff : list jsval) (st : state) :
  Forall (fun v => isOp cfg v = true) buff ->
  pubIsUp st = true -> fanOutBuffer st = [] ->
  exists cmds st2,
    mapM (forward cfg) buff = Some cmds /\
    forEachM (fun st op => dispatch cfg st (storeAction (FanOut op))) buff st
    = Some st2 /\
    sent st2 = sent st ++ concat cmds /\
    fanOutBuffer st2 = [] /\ pubIsUp st2 = true /\ s st2 = s st.
Proof.
  intros Hall. revert st.
  induction Hall as [|v vs Hv _ IH]; intros st Hup Hb.
  - exists [], st. simpl. rewrite app_nil_r. repeat split; auto.
  - destruct (dispatch_FanOut_up st v Hv Hup Hb) as (c & Hf & Hd).
    destruct (IH (notify (call c st)) Hup Hb)
      as (cmds & st2 & Hm & Hl & Hs & Hb2 & Hup2 & Hset).
    exists (c :: cmds), st2. simpl. rewrite Hf, Hd. simpl. rewrite Hm. simpl.
    split; [reflexivity|]. split; [exact Hl|]. split; [|auto].
    rewrite Hs. simpl. rewrite <- app_assoc. reflexivity.
Qed.

(** The call that writes an operation to the key. *)
Definition write_of (o : LiveSetOp.t) : command :=
  match o with
  | LiveSetOp.Add v => Sadd key [JSON.stringify v]
  | LiveSetOp.Remove v => Srem key [JSON.stringify v]
  | LiveSetOp.Clear => Del key
  | LiveSetOp.AddAll vs => Sadd key (map JSON.stringify vs)
  | LiveSetOp.ReplaceAll vs => MultiDelSadd key (map JSON.stringify vs)
  end.

(** An operation forwarded once: the write of its variant to the key,
    then the publish of its text on the updates channel. *)
Definition forwarded (v : jsval) (cmds : list command) : Prop :=
  exists o,
    view v = Some o /\
    cmds = [write_of o; Publish updatesChan (JSON.stringify v)].

Lemma forward_forwarded (v : jsval) (cmds : list command) :
  isOp cfg v = true -> forward cfg v = Some cmds -> forwarded v cmds.
Proof.
  unfold isOp, forward, store_write, forwarded, view.
  rewrite isLiveSetOp_shape. unfold op_shape. rewrite !has_tag_eq.
  destruct (prop "_tag" v) as [| | | |t| |]; try discriminate.
  case_tag t; try discriminate; intros H;
    try (intros [= <-]; eexists; split; reflexivity).
  - destruct (prop "values" v); try discriminate H.
    intros [= <-]. eexists; split; reflexivity.
  - destruct (prop "values" v); try discriminate H.
    intros [= <-]. eexists; split; reflexivity.
Qed.

Lemma mapM_forward_forwarded (vs : list jsval) (cmds : list (list command)) :
  Forall (fun v => isOp cfg v = true) vs ->
  mapM (forward cfg) vs = Some cmds ->
  Forall2 forwarded vs cmds.
Proof.
  intros Hall Hm. apply mapM_Some_1 in Hm.
  induction Hm as [|v c vs cmds Hf _ IH]; [constructor|].
  apply Forall_cons in Hall as [Hv Hall].
  constructor; [apply (forward_forwarded v c Hv Hf)|apply IH, Hall].
Qed.

(** C3. After a failure event on the publish connection, local operations
    are appended to the outbound buffer in the order issued and nothing
    is sent; at "ready" the whole buffer is forwarded oldest first, each
    operation once, as the write of its variant to the key followed by
    the publish of its text, and the buffer is empty; an operation issued
    afterwards is forwarded after them. *)
Theorem outbound_buffer_fifo (st : state) (ops : list jsval) (next : jsval) :
  Forall (fun v => isOp cfg v = true) (fanOutBuffer st) ->
  Forall (fun v => isOp cfg v = true) ops ->
  isOp cfg next = true ->
  exists st1 st2 st3 cmds cmds_next,
    dispatch_all ops (on_pub_fail st) = Some st1 /\
    fanOutBuffer st1 = fanOutBuffer st ++ ops /\
    sent st1 = sent st /\
    on_pub_ready cfg st1 = Some st2 /\
    Forall2 forwarded (fanOutBuffer st ++ ops) cmds /\
    sent st2 = sent st ++ concat cmds /\
    fanOutBuffer st2 = [] /\
    dispatch cfg st2 (storeAction next) = Some st3 /\
    forwarded next cmds_next /\
    sent st3 = sent st ++ concat cmds ++ cmds_next /\
    fanOutBuffer st3 = [].
Proof.
  intros Hbuf Hops Hnext.
  destruct (dispatch_all_down ops (on_pub_fail st) Hops eq_refl)
    as (st1 & H1 & Hb1 & Hs1 & _).
  simpl in Hb1, Hs1.
  assert (Hall : Forall (fun v => isOp cfg v = true) (fanOutBuffer st1)).
  { rewrite Hb1. apply Forall_app. auto. }
  destruct (flush_loop (fanOutBuffer st1)
              (set_fanOutBuffer [] (set_pubIsUp true st1)) Hall eq_refl eq_refl)
    as (cmds & st2 & Hm & Hl & Hs2 & Hb2 & Hup2 & _).
  destruct (dispatch_op_up st2 next Hnext Hup2 Hb2) as (set' & c & _ & Hf & Hd).
  exists st1, st2, (notify (set_s set' (call c st2))), cmds, c.
  rewrite <- Hb1. repeat split; auto.
  - apply (mapM_forward_forwarded _ _ Hall Hm).
  - rewrite Hs2. simpl. rewrite Hs1. reflexivity.
  - apply (forward_forwarded next c Hnext Hf).
  - simpl. rewrite Hs2. simpl. rewrite Hs1, <- app_assoc. reflexivity.
Qed.
End store_properties.

(** ** The inbound side *)





Section inbound_properties.
Variable cfg : config.
#[local] Abbreviation key := (cfg_key cfg).
#[local] Abbreviation typeMatcher := (cfg_typeMatcher cfg).
#[local] Abbreviation updatesChan := (cfg_updatesChan cfg).

(** A FanIn action: the operation is applied, nothing else happens. *)
Lemma dispatch_FanIn (st : state) (v : jsval) :
  isOp cfg v = true ->
  exists set',
    apply (s st) v = Some set' /\
    dispatch cfg st (storeAction (FanIn v)) = Some (notify (set_s set' st)).
Proof.
  intros Hv. destruct (isOp_apply cfg (s st) v Hv) as [set' Ha].
  exists set'. split; [exact Ha|].
  rewrite dispatch_storeAction by discriminate.
  rewrite reducer_FanIn by exact Hv. rewrite Ha. reflexivity.
Qed.

Lemma isOp_ReplaceAll_nil : isOp cfg (ReplaceAll []) = true.
Proof.
  unfold isOp.
  apply (isLiveSetOp_op_value typeMatcher (LiveSetOp.ReplaceAll [])).
Qed.

Lemma flushFanInBuffer_nil (st : state) :
  fanInBuffer st = [] -> flushFanInBuffer cfg st = Some st.
Proof.
  intros H. unfold flushFanInBuffer. rewrite H. simpl.
  destruct st; simpl in *; subst; reflexivity.
Qed.

(** C10. When the fetch succeeds with a value that is not an array of
    strings, the baseline is [ReplaceAll] of the empty list: whatever the
    Set was, it is empty once the baseline is applied, and it is empty at
    the end of the callback when no operation was buffered. *)
Theorem seed_baseline_not_strings (st : state) (value : jsval) :
  isArrayOf isString value = false ->
  exists st1,
    seed_baseline cfg (ReplyValue value) st = Some st1 /\
    s st1 = ∅ /\
    (fanInBuffer st = [] ->
     exists st2, on_smembers cfg (ReplyValue value) st = Some st2 /\ s st2 = ∅).
Proof.
  intros Hv.
  destruct (dispatch_FanIn st (ReplaceAll []) isOp_ReplaceAll_nil)
    as (set' & Ha & Hd).
  assert (set' = ∅) as ->.
  { assert (H := apply_op_value (s st) (LiveSetOp.ReplaceAll [])).
    change (op_value (LiveSetOp.ReplaceAll [])) with (ReplaceAll []) in H.
    rewrite H in Ha. injection Ha as <-. reflexivity. }
  exists (notify (set_s ∅ st)).
  assert (Hb : seed_baseline cfg (ReplyValue value) st
               = Some (notify (set_s ∅ st))).
  { unfold seed_baseline. rewrite Hv. simpl. exact Hd. }
  split; [exact Hb|]. split; [reflexivity|].
  intros Hin. exists (set_isLoadingSeed false (notify (set_s ∅ st))).
  split; [|reflexivity].
  unfold on_smembers. rewrite Hb. simpl.
  rewrite flushFanInBuffer_nil by exact Hin. reflexivity.
Qed.

(** C4. A failed fetch ends the seed load and does nothing else: with no
    operation buffered the callback returns the store as it was, the
    loading flag cleared -- no call on a client, no listener run, no
    exception, the Set as before. *)
Theorem fetch_failure_passes_silently (st : state) :
  fanInBuffer st = [] ->
  on_smembers cfg ReplyErr st = Some (set_isLoadingSeed false st).
Proof.
  intros Hin. unfold on_smembers. simpl.
  rewrite flushFanInBuffer_nil by exact Hin. reflexivity.
Qed.

(** A broadcast operation is applied on arrival, also while a seed load
    is under way: the handler never appends to the inbound buffer. *)
Lemma message_applied_at_once (st : state) (message : string) (v : jsval) :
  JSON.parse message = Some v ->
  own_property "hasOwnProperty" v = false ->
  isOp cfg v = true ->
  exists set',
    apply (s st) v = Some set' /\
    on_message cfg updatesChan message st = Some (notify (set_s set' st)).
Proof.
  intros Hp Hown Hv. destruct (dispatch_FanIn st v Hv) as (set' & Ha & Hd).
  exists set'. split; [exact Ha|].
  unfold on_message. rewrite String.eqb_refl, Hp. simpl.
  rewrite Hown, Hv. exact Hd.
Qed.

End inbound_properties.

(** ** Reachable stores *)

Section reachable.
Variable cfg : config.

Lemma store_dispatch_buffers_ok (type : jsval) (ls ls' : RedisLiveSet) :
  buffers_ok cfg (_store ls) ->
  store_dispatch cfg type ls = Some ls' ->
  buffers_ok cfg (_store ls').
Proof.
  intros Hok. unfold store_dispatch.
  destruct (dispatch cfg (_store ls) (JObj [("type", type)])) as [st|] eqn:E;
    [|discriminate].
  intros [= <-]. apply (dispatch_buffers_ok cfg _ _ _ Hok E).
Qed.

Lemma on_pub_ready_buffers_ok (st st' : state) :
  buffers_ok cfg st -> on_pub_ready cfg st = Some st' -> buffers_ok cfg st'.
Proof.
  intros (_ & _ & Hin). unfold on_pub_ready, flushFanOutBuffer.
  apply (forEachM_dispatch_buffers_ok cfg FanOut).
  unfold buffers_ok. simpl. auto.
Qed.

Lemma on_smembers_buffers_ok (r : reply) (st st' : state) :
  buffers_ok cfg st -> on_smembers cfg r st = Some st' -> buffers_ok cfg st'.
Proof.
  intros Hok. unfold on_smembers.
  destruct (seed_baseline cfg r st) as [st1|] eqn:E1; [|discriminate]. simpl.
  assert (Hok1 : buffers_ok cfg st1).
  { destruct r; simpl in E1.
    - injection E1 as <-. exact Hok.
    - destruct (if isArrayOf isString value
                then items ← array_map string_of value; mapM JSON.parse items
                else Some []) as [newSet|]; [|discriminate].
      apply (dispatch_buffers_ok cfg _ _ _ Hok E1). }
  rewrite flushFanInBuffer_nil by apply Hok1. simpl.
  intros [= <-]. exact Hok1.
Qed.

Lemma on_message_buffers_ok (ch message : string) (st st' : state) :
  buffers_ok cfg st -> on_message cfg ch message st = Some st' ->
  buffers_ok cfg st'.
Proof.
  intros Hok. unfold on_message.
  destruct (String.eqb ch (cfg_updatesChan cfg)); [|intros [= <-]; exact Hok].
  destruct (JSON.parse message) as [op|]; [|discriminate]. simpl.
  destruct (own_property "hasOwnProperty" op); [discriminate|].
  destruct (isOp cfg op); [|intros [= <-]; exact Hok].
  apply (dispatch_buffers_ok cfg _ _ _ Hok).
Qed.

Lemma step_buffers_ok (ls ls' : RedisLiveSet) (e : event) :
  buffers_ok cfg (_store ls) -> step cfg ls e = Some ls' ->
  buffers_ok cfg (_store ls').
Proof.
  intros Hok.
  destruct e; simpl;
    try (apply (store_dispatch_buffers_ok _ _ _ Hok));
    try (intros [= <-]; exact Hok).
  - intros [= <-]. unfold onMembersInit.
    destruct (_membersInitDone ls); exact Hok.
  - destruct (on_pub_ready cfg (_store ls)) as [st|] eqn:E; [|discriminate].
    intros [= <-]. apply (on_pub_ready_buffers_ok _ _ Hok E).
  - intros [= <-]. destruct Hok as (_ & Hall & Hin).
    unfold buffers_ok. simpl. split; [discriminate|auto].
  - intros [= <-]. unfold on_subscribe. simpl.
    destruct (String.eqb ch (cfg_updatesChan cfg)); exact Hok.
  - unfold seed_load_done.
    destruct (on_smembers cfg r (_store ls)) as [st|] eqn:E; [|discriminate].
    simpl. destruct r; intros [= <-]; unfold onMembersLoaded; simpl;
      try destruct (_membersInitDone ls);
      apply (on_smembers_buffers_ok _ _ _ Hok E).
  - destruct (on_message cfg ch message (_store ls)) as [st|] eqn:E;
      [|discriminate].
    intros [= <-]. apply (on_message_buffers_ok _ _ _ _ Hok E).
Qed.

Lemma run_buffers_ok (evs : list event) (ls ls' : RedisLiveSet) :
  buffers_ok cfg (_store ls) -> run cfg ls evs = Some ls' ->
  buffers_ok cfg (_store ls').
Proof.
  revert ls. induction evs as [|e evs IH]; intros ls Hok; unfold run; simpl.
  - intros [= <-]. exact Hok.
  - destruct (step cfg ls e) as [ls1|] eqn:E; [|discriminate]. simpl.
    apply IH. apply (step_buffers_ok _ _ _ Hok E).
Qed.

(** X18. Whatever the events, the store of a live set never has the publish
    side up with operations still buffered; its outbound buffer holds
    recognized operations only and its inbound buffer is empty. *)
Theorem pubIsUp_buffer_empty (evs : list event) (ls : RedisLiveSet) :
  run cfg (new_RedisLiveSet cfg) evs = Some ls -> buffers_ok cfg (_store ls).
Proof.
  apply run_buffers_ok. unfold buffers_ok. simpl.
  split; [discriminate|]. split; [constructor|reflexivity].
Qed.
End reachable.

(** ** Subscribers *)

(** What a listener remembers is the state it last passed to its
    callback, once it has run. *)
Lemma on_change_last (newSet : ISet) (l : subscriber) :
  lastSet l = last (calls l) ->
  lastSet (on_change newSet l) = last (calls (on_change newSet l)).
Proof.
  intros H. unfold on_change. simpl. destruct (lastSet l) as [x|].
  - case_bool_decide as E.
    + rewrite <- H, E. reflexivity.
    + rewrite last_snoc. reflexivity.
  - rewrite last_snoc. reflexivity.
Qed.

Lemma on_change_calls (newSet : ISet) (l : subscriber) :
  lastSet l = last (calls l) ->
  calls (on_change newSet l)
  = if bool_decide (last (calls l) = Some newSet) then calls l
    else calls l ++ [newSet].
Proof.
  intros H. unfold on_change. simpl. rewrite <- H. destruct (lastSet l) as [x|].
  - repeat case_bool_decide; congruence.
  - rewrite bool_decide_eq_false_2 by discriminate. reflexivity.
Qed.

Section subscribers.
Variable cfg : config.

Lemma fanOut_listeners (v : jsval) (st st' : state) :
  fanOut cfg v st = Some st' -> listeners st' = listeners st.
Proof. intros H. apply (fanOut_s cfg _ _ _ H). Qed.

Lemma reducer_listeners (st st' : state) (action : jsval) :
  reducer cfg st action = Some st' -> listeners st' = listeners st.
Proof.
  unfold reducer.
  destruct (isOp cfg (prop "type" action)).
  - destruct (apply (s st) (prop "type" action)); [|discriminate]. simpl.
    destruct (fanOut cfg (prop "type" action) st) as [st1|] eqn:E;
      [|discriminate].
    intros [= <-]. simpl. apply (fanOut_listeners _ _ _ E).
  - destruct (isFanIn cfg (prop "type" action)).
    + destruct (apply (s st) (prop "value" (prop "type" action)));
        [|discriminate].
      intros [= <-]. reflexivity.
    + destruct (isFanOut cfg (prop "type" action)).
      * apply fanOut_listeners.
      * intros [= <-]. reflexivity.
Qed.

(** After a dispatch every listener has run once, on the new state. *)
Lemma dispatch_listeners (st st' : state) (action : jsval) :
  dispatch cfg st action = Some st' ->
  listeners st' = map (on_change (s st')) (listeners st).
Proof.
  unfold dispatch.
  destruct (prop "type" action); try discriminate;
    (destruct (reducer cfg st action) as [st1|] eqn:E; [|discriminate]);
    intros [= <-]; simpl; rewrite (reducer_listeners _ _ _ E); reflexivity.
Qed.

(** C5, as the code has it.  In a store of primitive values -- those
    [equals] compares by value -- after a dispatched action a subscriber's
    callback is invoked, once and with the resulting Set, exactly when it
    has never been invoked before or the resulting Set differs from the
    one it was last invoked with; otherwise it is not invoked. *)
Theorem subscriber_notified_iff_new (st st' : state) (action : jsval)
    (i : nat) (l : subscriber) :
  primitive_matcher (cfg_typeMatcher cfg) ->
  primitive_set (s st) ->
  dispatch cfg st action = Some st' ->
  listeners st !! i = Some l ->
  lastSet l = last (calls l) ->
  exists l',
    listeners st' !! i = Some l' /\
    lastSet l' = last (calls l') /\
    calls l' = if bool_decide (last (calls l) = Some (s st')) then calls l
               else calls l ++ [s st'].
Proof.
  intros _ _ Hd Hi Hl. exists (on_change (s st') l).
  rewrite (dispatch_listeners _ _ _ Hd), list_lookup_fmap, Hi.
  split; [reflexivity|]. split.
  - apply on_change_last, Hl.
  - apply on_change_calls, Hl.
Qed.
End subscribers.

(** ** [onMembersInit] *)

(** The Sets a callback was invoked with, oldest first. *)
Definition init_calls_of (cb : nat) (ls : RedisLiveSet) : list ISet :=
  snd <$> filter (fun p => fst p = cb) (initCalls ls).

Lemma filter_waiting (cb : nat) (set : ISet) (l : list nat) :
  snd <$> filter (fun p => fst p = cb) (map (fun c => (c, set)) l)
  = (fun _ => set) <$> filter (fun c => c = cb) l.
Proof.
  induction l as [|c l IH]; [reflexivity|].
  cbn [map]. rewrite !filter_cons. cbn [fst].
  destruct (decide (c = cb)); [|exact IH].
  rewrite !fmap_cons. cbn [snd]. f_equal. exact IH.
Qed.

(** A reply of [smembers] that gives the members: the seed load it ends
    has loaded them. *)
Definition loads (e : event) : bool :=
  match e with
  | SmembersReply (ReplyValue _) => true
  | _ => false
  end.

Section members_init.
Variable cfg : config.

(** The Set after the first seed load of [evs] that loads the members. *)
Fixpoint first_seed (ls : RedisLiveSet) (evs : list event) : option ISet :=
  match evs with
  | [] => None
  | e :: evs' =>
      match step cfg ls e with
      | None => None
      | Some ls1 =>
          if loads e then Some (s (_store ls1)) else first_seed ls1 evs'
      end
  end.

(** [_membersInitDone] is set by the first seed load that loads the
    members, and by nothing else; it is never cleared. *)
Lemma step_flag (ls ls' : RedisLiveSet) (e : event) :
  step cfg ls e = Some ls' ->
  _membersInitDone ls' = _membersInitDone ls || loads e.
Proof.
  assert (Hstore : forall o : option state,
            (st ← o; Some (with_store st ls)) = Some ls' ->
            _membersInitDone ls' = _membersInitDone ls || false).
  { intros [st|]; [|discriminate]. intros [= <-]. simpl.
    rewrite orb_false_r. reflexivity. }
  destruct e as [v|v|vs| |vs| |cb'| | | |ch|r|ch msg]; simpl;
    try apply Hstore;
    try (intros [= <-]; simpl; rewrite orb_false_r; reflexivity).
  - intros [= <-]. unfold onMembersInit.
    destruct (_membersInitDone ls); simpl; reflexivity.
  - unfold seed_load_done.
    destruct (on_smembers cfg r (_store ls)) as [st|]; [|discriminate].
    simpl. destruct r; intros [= <-]; simpl.
    + rewrite orb_false_r. reflexivity.
    + unfold onMembersLoaded, with_store. simpl.
      destruct (_membersInitDone ls) eqn:Hdone; simpl; rewrite ?Hdone; reflexivity.
Qed.

Lemma run_flag (evs : list event) (ls ls' : RedisLiveSet) :
  run cfg ls evs = Some ls' ->
  _membersInitDone ls' = _membersInitDone ls || existsb loads evs.
Proof.
  revert ls. induction evs as [|e evs IH]; intros ls; unfold run; simpl.
  - intros [= <-]. rewrite orb_false_r. reflexivity.
  - destruct (step cfg ls e) as [ls1|] eqn:E; [|discriminate]. simpl.
    intros Hr. rewrite (IH ls1 Hr), (step_flag _ _ _ E), orb_assoc.
    reflexivity.
Qed.

(** A callback that was never registered neither waits nor was invoked,
    and once the members are loaded no callback waits. *)
Definition unregistered (cb : nat) (ls : RedisLiveSet) : Prop :=
  (cb ∉ _membersInitCallbacks ls) /\ init_calls_of cb ls = [] /\
  (_membersInitDone ls = true -> _membersInitCallbacks ls = []).

Lemma filter_absent (cb : nat) (l : list nat) :
  cb ∉ l -> filter (fun c => c = cb) l = [].
Proof.
  induction l as [|c l IH]; [reflexivity|].
  intros [Hc Hl]%not_elem_of_cons.
  rewrite filter_cons_False by congruence. apply IH, Hl.
Qed.

Lemma step_unregistered (cb : nat) (ls ls' : RedisLiveSet) (e : event) :
  e <> CallOnMembersInit cb ->
  step cfg ls e = Some ls' ->
  unregistered cb ls -> unregistered cb ls'.
Proof.
  intros Hne Hstep (Hw & Hc & Hinv).
  assert (Hstore : forall o : option state,
            (st ← o; Some (with_store st ls)) = Some ls' ->
            unregistered cb ls').
  { intros [st|]; [|discriminate]. intros [= <-].
    unfold unregistered, init_calls_of. simpl. auto. }
  destruct e as [v|v|vs| |vs| |cb'| | | |ch|r|ch msg]; simpl in Hstep;
    try (apply (Hstore _ Hstep));
    try (injection Hstep as <-; unfold unregistered, init_calls_of; simpl; auto).
  - assert (cb' <> cb) by congruence.
    unfold unregistered, init_calls_of, onMembersInit.
    destruct (_membersInitDone ls) eqn:Hdone; simpl.
    + split; [exact Hw|]. split; [|exact Hinv].
      rewrite filter_app, filter_cons_False, filter_nil, app_nil_r by
        (simpl; congruence).
      exact Hc.
    + split; [|split; [exact Hc|discriminate]].
      rewrite not_elem_of_app, not_elem_of_cons. split; [exact Hw|].
      split; [congruence|apply not_elem_of_nil].
  - unfold seed_load_done in Hstep.
    destruct (on_smembers cfg r (_store ls)) as [st|]; [|discriminate].
    simpl in Hstep. destruct r; injection Hstep as <-.
    + unfold unregistered, init_calls_of. simpl. auto.
    + unfold unregistered, init_calls_of, onMembersLoaded. simpl.
      destruct (_membersInitDone ls) eqn:Hdone; simpl.
      * auto.
      * split; [apply not_elem_of_nil|]. split; [|reflexivity].
        rewrite filter_app, fmap_app, filter_waiting.
        rewrite (filter_absent cb _ Hw), app_nil_r. exact Hc.
Qed.

Lemma run_unregistered (cb : nat) (evs : list event) (ls ls' : RedisLiveSet) :
  Forall (fun e => e <> CallOnMembersInit cb) evs ->
  run cfg ls evs = Some ls' ->
  unregistered cb ls -> unregistered cb ls'.
Proof.
  intros Hall. revert ls.
  induction Hall as [|e evs He _ IH]; intros ls; unfold run; simpl.
  - intros [= <-]. auto.
  - destruct (step cfg ls e) as [ls1|] eqn:E; [|discriminate]. simpl.
    intros Hr Hu. apply (IH ls1 Hr), (step_unregistered cb _ _ _ He E Hu).
Qed.

(** Once the members are loaded, an event that is not a registration of
    [cb] does not invoke it. *)
Lemma step_done (cb : nat) (ls ls' : RedisLiveSet) (e : event) :
  _membersInitDone ls = true -> _membersInitCallbacks ls = [] ->
  e <> CallOnMembersInit cb ->
  step cfg ls e = Some ls' ->
  init_calls_of cb ls' = init_calls_of cb ls /\
  _membersInitDone ls' = true /\ _membersInitCallbacks ls' = [].
Proof.
  intros Hdone Hnil Hne.
  assert (Hstore : forall o : option state,
            (st ← o; Some (with_store st ls)) = Some ls' ->
            init_calls_of cb ls' = init_calls_of cb ls /\
            _membersInitDone ls' = true /\ _membersInitCallbacks ls' = []).
  { intros [st|]; [|discriminate]. intros [= <-]. auto. }
  destruct e; simpl; try apply Hstore; try (intros [= <-]; auto).
  - unfold onMembersInit, init_calls_of. rewrite Hdone. simpl.
    rewrite filter_app, filter_cons_False, filter_nil, app_nil_r by
      (simpl; congruence).
    auto.
  - unfold seed_load_done.
    destruct (on_smembers cfg r (_store ls)) as [st|]; [|discriminate].
    simpl. destruct r; intros [= <-]; [auto|].
    unfold onMembersLoaded. simpl. rewrite Hdone. auto.
Qed.

Lemma run_done (cb : nat) (evs : list event) (ls ls' : RedisLiveSet) :
  _membersInitDone ls = true -> _membersInitCallbacks ls = [] ->
  Forall (fun e => e <> CallOnMembersInit cb) evs ->
  run cfg ls evs = Some ls' ->
  init_calls_of cb ls' = init_calls_of cb ls.
Proof.
  intros Hdone Hnil Hall. revert ls Hdone Hnil.
  induction Hall as [|e evs He _ IH]; intros ls Hdone Hnil; unfold run; simpl.
  - intros [= <-]. reflexivity.
  - destruct (step cfg ls e) as [ls1|] eqn:E; [|discriminate]. simpl.
    destruct (step_done cb _ _ _ Hdone Hnil He E) as (H1 & H2 & H3).
    intros Hr. rewrite <- H1. apply (IH ls1 H2 H3 Hr).
Qed.

(** While the members are not loaded, a callback that waits is invoked
    by the first seed load that loads them, and by nothing else. *)
Lemma run_pending (cb : nat) (evs : list event) (ls ls' : RedisLiveSet) :
  _membersInitDone ls = false ->
  filter (fun c => c = cb) (_membersInitCallbacks ls) = [cb] ->
  Forall (fun e => e <> CallOnMembersInit cb) evs ->
  run cfg ls evs = Some ls' ->
  init_calls_of cb ls'
  = init_calls_of cb ls ++
      match first_seed ls evs with Some set => [set] | None => [] end.
Proof.
  intros Hdone Hcb Hall. revert ls Hdone Hcb.
  induction Hall as [|e evs He Hevs IH]; intros ls Hdone Hcb; unfold run; simpl.
  - intros [= <-]. rewrite app_nil_r. reflexivity.
  - destruct (step cfg ls e) as [ls1|] eqn:E; [|discriminate]. simpl.
    intros Hr.
    assert (Hstore : forall o : option state,
              (st ← o; Some (with_store st ls)) = Some ls1 ->
              init_calls_of cb ls' = init_calls_of cb ls ++
                match first_seed ls1 evs with Some set => [set] | None => [] end).
    { intros [st|]; [|discriminate]. intros [= <-].
      apply (IH (with_store st ls) Hdone Hcb Hr). }
    destruct e as [v|v|vs| |vs| |cb'| | | |ch|r|ch msg]; simpl in E;
      try (apply (Hstore _ E));
      try (injection E as <-;
           eapply IH in Hr; [exact Hr|exact Hdone|exact Hcb]).
    + injection E as <-.
      assert (cb' <> cb) by congruence.
      unfold onMembersInit in Hr |- *. rewrite Hdone in Hr |- *.
      eapply IH in Hr; [exact Hr|reflexivity|]. simpl.
      rewrite filter_app, Hcb, filter_cons_False, filter_nil by assumption.
      reflexivity.
    + unfold seed_load_done in E.
      destruct (on_smembers cfg r (_store ls)) as [st|]; [|discriminate].
      simpl in E. destruct r as [|value]; injection E as <-.
      * apply (IH (with_store st ls) Hdone Hcb Hr).
      * assert (Hd1 : _membersInitDone (onMembersLoaded (with_store st ls)) = true).
        { unfold onMembersLoaded. simpl. rewrite Hdone. reflexivity. }
        assert (Hn1 : _membersInitCallbacks (onMembersLoaded (with_store st ls)) = []).
        { unfold onMembersLoaded. simpl. rewrite Hdone. reflexivity. }
        rewrite (run_done cb evs _ ls' Hd1 Hn1 Hevs Hr).
        unfold onMembersLoaded, init_calls_of. simpl. rewrite Hdone. simpl.
        rewrite filter_app, fmap_app, filter_waiting, Hcb. reflexivity.
Qed.

(** A run in which a seed load loads the members has a first one. *)
Lemma first_seed_Some (evs : list event) (ls ls' : RedisLiveSet) :
  run cfg ls evs = Some ls' -> existsb loads evs = true ->
  exists set, first_seed ls evs = Some set.
Proof.
  revert ls. induction evs as [|e evs IH]; intros ls; unfold run; simpl;
    [discriminate|].
  destruct (step cfg ls e) as [ls1|]; [|discriminate]. simpl.
  intros Hr. destruct (loads e); [eauto|]. apply (IH ls1 Hr).
Qed.

(** C8. A callback given once to [onMembersInit] is invoked exactly once.
    When a seed load has loaded the members before the registration --
    which is what sets [_membersInitDone] -- it is invoked at the
    registration with the Set of that moment.  Otherwise it is not invoked
    at the registration but by the first seed load that loads the members
    afterwards, with the Set that load leaves.  Nothing that follows --
    another seed load, a change of the Set -- invokes it again. *)
Theorem onMembersInit_exactly_once (before after : list event) (cb : nat)
    (ls ls' : RedisLiveSet) :
  run cfg (new_RedisLiveSet cfg) before = Some ls ->
  Forall (fun e => e <> CallOnMembersInit cb) before ->
  Forall (fun e => e <> CallOnMembersInit cb) after ->
  run cfg (onMembersInit cb ls) after = Some ls' ->
  _membersInitDone ls = existsb loads before /\
  if existsb loads before then
    init_calls_of cb (onMembersInit cb ls) = [s (_store ls)] /\
    init_calls_of cb ls' = [s (_store ls)]
  else
    init_calls_of cb (onMembersInit cb ls) = [] /\
    init_calls_of cb ls'
    = match first_seed (onMembersInit cb ls) after with
      | Some set => [set]
      | None => []
      end /\
    (existsb loads after = true ->
     exists set, first_seed (onMembersInit cb ls) after = Some set).
Proof.
  intros Hb Hfresh Hall Hr.
  assert (Hflag := run_flag _ _ _ Hb). simpl in Hflag.
  assert (Hu : unregistered cb ls).
  { apply (run_unregistered cb before _ ls Hfresh Hb).
    unfold unregistered, init_calls_of. simpl.
    split; [apply not_elem_of_nil|]. split; [reflexivity|discriminate]. }
  destruct Hu as (Hw & Hc & Hinv).
  split; [exact Hflag|]. rewrite <- Hflag.
  assert (Hreg : init_calls_of cb (onMembersInit cb ls)
                 = if _membersInitDone ls then [s (_store ls)] else []).
  { unfold onMembersInit, init_calls_of in *.
    destruct (_membersInitDone ls); simpl; [|exact Hc].
    rewrite filter_app, fmap_app, Hc, filter_cons_True by reflexivity.
    reflexivity. }
  destruct (_membersInitDone ls) eqn:Hdone.
  - split; [exact Hreg|]. rewrite <- Hreg.
    apply (run_done cb after); [| |exact Hall|exact Hr].
    + unfold onMembersInit. rewrite Hdone. reflexivity.
    + unfold onMembersInit. rewrite Hdone. simpl. apply Hinv. reflexivity.
  - split; [exact Hreg|]. split.
    + rewrite (run_pending cb after (onMembersInit cb ls) ls');
        [rewrite Hreg; reflexivity| | |exact Hall|exact Hr].
      * unfold onMembersInit. rewrite Hdone. reflexivity.
      * unfold onMembersInit. rewrite Hdone. simpl.
        rewrite filter_app, (filter_absent cb _ Hw), filter_cons_True by
          reflexivity.
        reflexivity.
    + apply (first_seed_Some after _ ls' Hr).
Qed.
End members_init.

(** ** JSON round trip *)

(** A value [JSON.stringify] loses nothing of: no [undefined] inside, and
    no property name twice in an object. *)
Fixpoint json_clean (v : jsval) : bool :=
  match v with
  | JUndefined => false
  | JNull | JBool _ | JNum _ | JStr _ => true
  | JArr items => forallb json_clean items
  | JObj fields =>
      forallb (fun kv => json_clean (snd kv)) fields
      && bool_decide (NoDup (map fst fields))
  end.

Module JSONFacts.
Import JSON.

Lemma app_cons (c : ascii) (a b : string) :
  String c a +:+ b = String c (a +:+ b).
Proof. reflexivity. Qed.

Lemma app_nil_l (b : string) : EmptyString +:+ b = b.
Proof. reflexivity. Qed.

Lemma app_nil_r (a : string) : a +:+ EmptyString = a.
Proof. induction a as [|c a IH]; [reflexivity|]. rewrite app_cons, IH. reflexivity. Qed.

Lemma app_assoc (a b c : string) : (a +:+ b) +:+ c = a +:+ (b +:+ c).
Proof.
  induction a as [|x a IH]; [reflexivity|].
  rewrite !app_cons, IH. reflexivity.
Qed.

Lemma length_app (a b : string) :
  String.length (a +:+ b) = String.length a + String.length b.
Proof.
  induction a as [|x a IH]; [reflexivity|].
  rewrite app_cons. simpl. rewrite IH. reflexivity.
Qed.

(** The characters of the grammar, told apart. *)
Definition value_start (c : ascii) : bool :=
  is_digit c || Ascii.eqb c "-"%char || Ascii.eqb c "n"%char
  || Ascii.eqb c "t"%char || Ascii.eqb c "f"%char || Ascii.eqb c dquote
  || Ascii.eqb c "["%char || Ascii.eqb c "{"%char.

Ltac all_chars c := destruct c as [[] [] [] [] [] [] [] []].

Lemma value_start_facts (c : ascii) :
  value_start c = true ->
  is_ws c = false /\ Ascii.eqb c "]"%char = false
  /\ Ascii.eqb c "}"%char = false.
Proof. all_chars c; intros H; try discriminate H; repeat split. Qed.

Lemma digit_facts (c : ascii) :
  is_digit c = true ->
  value_start c = true /\ Ascii.eqb c "-"%char = false
  /\ Ascii.eqb c "n"%char = false /\ Ascii.eqb c "t"%char = false
  /\ Ascii.eqb c "f"%char = false /\ Ascii.eqb c dquote = false
  /\ Ascii.eqb c "["%char = false /\ Ascii.eqb c "{"%char = false.
Proof. all_chars c; intros H; try discriminate H; repeat split. Qed.

Lemma skip_ws_start (c : ascii) (s : string) :
  is_ws c = false -> skip_ws (String c s) = String c s.
Proof. intros H. simpl. rewrite H. reflexivity. Qed.

(** *** Strings *)

Lemma parse_chars_escape_char (c : ascii) (r : string) :
  parse_chars (escape_char c +:+ r)
  = '(str, rest) ← parse_chars r; Some (String c str, rest).
Proof. all_chars c; reflexivity. Qed.

Lemma parse_chars_escape (s rest : string) :
  parse_chars (escape s +:+ String dquote rest) = Some (s, rest).
Proof.
  induction s as [|c s IH]; [reflexivity|].
  simpl escape. rewrite app_assoc, parse_chars_escape_char, IH. reflexivity.
Qed.

Lemma parse_chars_quote (s rest : string) :
  parse_chars (escape s +:+ String dquote EmptyString +:+ rest) = Some (s, rest).
Proof. rewrite app_cons, app_nil_l. apply parse_chars_escape. Qed.

(** *** Numbers *)

(** What may follow a value inside a text: nothing, or a separator. *)
Definition closes (rest : string) : bool :=
  match rest with
  | EmptyString => true
  | String c _ =>
      Ascii.eqb c ","%char || Ascii.eqb c "]"%char || Ascii.eqb c "}"%char
  end.

Lemma closes_facts (rest : string) :
  closes rest = true ->
  span_digits rest = (EmptyString, rest) /\ starts_fraction rest = false
  /\ skip_ws rest = rest.
Proof.
  destruct rest as [|c r]; [intros _; repeat split|].
  simpl. all_chars c; intros H; try discriminate H; repeat split.
Qed.

Lemma span_digits_uint (u : uint) (rest : string) :
  closes rest = true ->
  span_digits (NilEmpty.string_of_uint u +:+ rest)
  = (NilEmpty.string_of_uint u, rest).
Proof.
  intros Hr. induction u as [|u IH|u IH|u IH|u IH|u IH|u IH|u IH|u IH|u IH|u IH];
    cbn [NilEmpty.string_of_uint];
    rewrite ?app_cons, ?app_nil_l; cbn [span_digits is_digit];
    rewrite ?IH; try reflexivity.
  apply (closes_facts rest Hr).
Qed.

Definition head_nonzero (u : uint) : bool :=
  match u with
  | Nil | D0 _ => false
  | _ => true
  end.

Lemma nzhead_head (u : uint) : nzhead u = Nil \/ head_nonzero (nzhead u) = true.
Proof. induction u; simpl; auto. Qed.

Lemma to_uint_head (p : positive) : head_nonzero (Pos.to_uint p) = true.
Proof.
  assert (H := DecimalPos.Unsigned.to_of (Pos.to_uint p)).
  rewrite DecimalPos.Unsigned.of_to in H. simpl in H.
  assert (Hz := DecimalPos.Unsigned.to_uint_nonzero p).
  rewrite H in Hz |- *. unfold unorm in *.
  destruct (nzhead_head (Pos.to_uint p)) as [E|E].
  - rewrite E in Hz. contradiction Hz. reflexivity.
  - destruct (nzhead (Pos.to_uint p)); try discriminate E; reflexivity.
Qed.

Lemma string_of_uint_head (u : uint) :
  head_nonzero u = true ->
  exists d ds,
    NilEmpty.string_of_uint u = String d ds /\
    Ascii.eqb d "0"%char = false /\ is_digit d = true.
Proof.
  destruct u; intros H; try discriminate H;
    eexists _, _; repeat split.
Qed.

Lemma parse_uint_nonzero (u : uint) (rest : string) :
  head_nonzero u = true -> closes rest = true ->
  parse_uint (NilEmpty.string_of_uint u +:+ rest) = Some (Z.of_uint u, rest).
Proof.
  intros Hu Hr. unfold parse_uint. rewrite (span_digits_uint u rest Hr).
  destruct (closes_facts rest Hr) as (_ & Hf & _).
  destruct (string_of_uint_head u Hu) as (d & ds & E & Hd & _).
  rewrite E, Hd, Hf. cbn [andb]. rewrite <- E, NilEmpty.usu. reflexivity.
Qed.

Lemma parse_uint_zero (rest : string) :
  closes rest = true -> parse_uint (String "0"%char rest) = Some (0%Z, rest).
Proof.
  intros Hr. unfold parse_uint. cbn [span_digits is_digit].
  destruct (closes_facts rest Hr) as (-> & -> & _). reflexivity.
Qed.

Lemma of_uint_to_uint (p : positive) : Z.of_uint (Pos.to_uint p) = Z.pos p.
Proof. unfold Z.of_uint. rewrite DecimalPos.Unsigned.of_to. reflexivity. Qed.

Lemma ser_num_pos (p : positive) :
  ser_num (Z.pos p) = NilEmpty.string_of_uint (Pos.to_uint p).
Proof.
  unfold ser_num. simpl. assert (H := to_uint_head p).
  destruct (Pos.to_uint p); try discriminate H; reflexivity.
Qed.

Lemma ser_num_neg (p : positive) :
  ser_num (Z.neg p) = String "-"%char (NilEmpty.string_of_uint (Pos.to_uint p)).
Proof.
  unfold ser_num. simpl. assert (H := to_uint_head p).
  destruct (Pos.to_uint p); try discriminate H; reflexivity.
Qed.

Lemma parse_number_ser (n : Z) (rest : string) :
  closes rest = true ->
  parse_number (ser_num n +:+ rest) = Some (JNum n, rest).
Proof.
  intros Hr. destruct n as [|p|p].
  - change (ser_num 0) with (String "0"%char EmptyString).
    rewrite app_cons, app_nil_l. unfold parse_number. cbn [Ascii.eqb Bool.eqb].
    rewrite (parse_uint_zero rest Hr). reflexivity.
  - rewrite ser_num_pos.
    destruct (string_of_uint_head _ (to_uint_head p)) as (d & ds & E & _ & Hd).
    unfold parse_number. rewrite E, app_cons.
    destruct (digit_facts d Hd) as (_ & -> & _).
    rewrite <- app_cons, <- E, (parse_uint_nonzero _ rest (to_uint_head p) Hr).
    simpl. rewrite of_uint_to_uint. reflexivity.
  - rewrite ser_num_neg, app_cons. unfold parse_number. cbn [Ascii.eqb Bool.eqb].
    rewrite (parse_uint_nonzero _ rest (to_uint_head p) Hr).
    simpl. rewrite of_uint_to_uint. reflexivity.
Qed.

Lemma ser_num_head (n : Z) :
  exists c s,
    ser_num n = String c s /\ (is_digit c || Ascii.eqb c "-"%char) = true.
Proof.
  destruct n as [|p|p].
  - eexists _, _. split; reflexivity.
  - rewrite ser_num_pos.
    destruct (string_of_uint_head _ (to_uint_head p)) as (d & ds & E & _ & Hd).
    exists d, ds. rewrite Hd. auto.
  - rewrite ser_num_neg. eexists _, _. split; reflexivity.
Qed.

Lemma parse_value_number (fuel : nat) (c : ascii) (s : string) :
  (is_digit c || Ascii.eqb c "-"%char) = true ->
  parse_value (S fuel) (String c s) = parse_number (String c s).
Proof. all_chars c; intros H; try discriminate H; reflexivity. Qed.

(** *** Values *)

Definition member_text (kv : string * jsval) : string :=
  quote (fst kv) +:+ ":" +:+ ser (snd kv).

Lemma ser_arr (items : list jsval) :
  ser (JArr items) = String "["%char (commas (map ser items) +:+ "]").
Proof. reflexivity. Qed.

Lemma ser_obj (fields : list (string * jsval)) :
  forallb (fun kv => json_clean (snd kv)) fields = true ->
  ser (JObj fields) = String "{"%char (commas (map member_text fields) +:+ "}").
Proof.
  intros Hc. cbn [ser]. rewrite app_cons, app_nil_l. do 3 f_equal.
  induction fields as [|[k v] fields IH]; [reflexivity|].
  cbn [forallb snd] in Hc. apply andb_true_iff in Hc as [Hv Hc].
  cbn [map]. rewrite <- (IH Hc).
  destruct v; try discriminate Hv; reflexivity.
Qed.

Lemma commas_one (x : string) : commas [x] = x.
Proof. reflexivity. Qed.

Lemma commas_cons (x y : string) (l : list string) :
  commas (x :: y :: l) = x +:+ String ","%char (commas (y :: l)).
Proof. reflexivity. Qed.

Lemma parse_value_S (fuel : nat) (c : ascii) (s : string) :
  value_start c = true ->
  parse_value (S fuel) (String c s)
  = (if Ascii.eqb c "n"%char then
       r ← strip_prefix "ull" s; Some (JNull, r)
     else if Ascii.eqb c "t"%char then
       r ← strip_prefix "rue" s; Some (JBool true, r)
     else if Ascii.eqb c "f"%char then
       r ← strip_prefix "alse" s; Some (JBool false, r)
     else if Ascii.eqb c dquote then
       '(str, r) ← parse_chars s; Some (JStr str, r)
     else if Ascii.eqb c "["%char then
       match skip_ws s with
       | String c' r =>
           if Ascii.eqb c' "]"%char then Some (JArr [], r)
           else parse_items fuel s []
       | EmptyString => None
       end
     else if Ascii.eqb c "{"%char then
       match skip_ws s with
       | String c' r =>
           if Ascii.eqb c' "}"%char then Some (JObj [], r)
           else parse_members fuel s []
       | EmptyString => None
       end
     else parse_number (String c s)).
Proof.
  intros H. destruct (value_start_facts c H) as (Hw & _).
  cbn [parse_value]. rewrite (skip_ws_start c s Hw). reflexivity.
Qed.

Lemma parse_items_S (fuel : nat) (s : string) (acc : list jsval) :
  parse_items (S fuel) s acc
  = '(v, r) ← parse_value fuel s;
    match skip_ws r with
    | String c r' =>
        if Ascii.eqb c ","%char then parse_items fuel r' (v :: acc)
        else if Ascii.eqb c "]"%char then Some (JArr (rev (v :: acc)), r')
        else None
    | EmptyString => None
    end.
Proof. reflexivity. Qed.

Lemma parse_members_S (fuel : nat) (s : string) (acc : list (string * jsval)) :
  parse_members (S fuel) (String dquote s) acc
  = '(k, r1) ← parse_chars s;
    match skip_ws r1 with
    | String c1 r2 =>
        if Ascii.eqb c1 ":"%char then
          '(v, r3) ← parse_value fuel r2;
          match skip_ws r3 with
          | String c r4 =>
              if Ascii.eqb c ","%char then
                parse_members fuel r4 (obj_set k v acc)
              else if Ascii.eqb c "}"%char then
                Some (JObj (obj_set k v acc), r4)
              else None
          | EmptyString => None
          end
        else None
    | EmptyString => None
    end.
Proof. reflexivity. Qed.

(** A value whose text, followed by a separator or by nothing, is read
    back as the value, with fuel for the length of the text. *)
Definition round_trips (v : jsval) : Prop :=
  forall fuel rest,
    String.length (ser v) <= fuel -> closes rest = true ->
    parse_value fuel (ser v +:+ rest) = Some (v, rest).

Lemma ser_start (v : jsval) :
  exists c s, ser v = String c s /\ value_start c = true.
Proof.
  destruct v as [| |[]|n|str|items|fields];
    try (eexists _, _; split; reflexivity).
  destruct (ser_num_head n) as (c & s & E & Hc).
  exists c, s. split; [exact E|].
  apply orb_true_iff in Hc as [Hd| ->%Ascii.eqb_eq]; [|reflexivity].
  apply (digit_facts c Hd).
Qed.

Lemma parse_items_ok (items : list jsval) :
  Forall (fun v => json_clean v = true -> round_trips v) items ->
  forallb json_clean items = true -> items <> [] ->
  forall fuel acc rest,
    1 + String.length (commas (map ser items)) <= fuel ->
    parse_items fuel (commas (map ser items) +:+ String "]"%char rest) acc
    = Some (JArr (rev acc ++ items), rest).
Proof.
  induction 1 as [|x xs Hx Hxs IH]; [congruence|].
  intros Hc _ fuel acc rest Hf.
  cbn [forallb] in Hc. apply andb_true_iff in Hc as [Hcx Hcxs].
  destruct fuel as [|f]; [lia|]. rewrite parse_items_S.
  destruct xs as [|y ys].
  - cbn [map] in *. rewrite commas_one in *.
    rewrite (Hx Hcx f (String "]"%char rest)) by (reflexivity || lia).
    reflexivity.
  - cbn [map] in Hf |- *. rewrite commas_cons in Hf |- *.
    rewrite length_app in Hf. cbn [String.length] in Hf.
    rewrite app_assoc, app_cons.
    rewrite (Hx Hcx f) by (reflexivity || lia).
    cbn [mbind option_bind skip_ws is_ws Ascii.eqb Bool.eqb].
    change (ser y :: map ser ys) with (map ser (y :: ys)) in *.
    rewrite IH by (congruence || lia || assumption).
    cbn [rev]. rewrite <- List.app_assoc. reflexivity.
Qed.

Ltac flatten_text :=
  repeat first [rewrite app_assoc | rewrite app_cons | rewrite app_nil_l].

Lemma obj_set_fresh (k : string) (v : jsval) (acc : list (string * jsval)) :
  k ∉ map fst acc -> obj_set k v acc = acc ++ [(k, v)].
Proof.
  induction acc as [|[k' v'] acc IH]; [reflexivity|].
  cbn [map fst]. intros [Hk Hacc]%not_elem_of_cons.
  cbn [obj_set]. destruct (String.eqb_spec k' k) as [->|_]; [contradiction|].
  rewrite (IH Hacc). reflexivity.
Qed.

Lemma parse_members_ok (fields : list (string * jsval)) :
  Forall (fun kv => json_clean (snd kv) = true -> round_trips (snd kv)) fields ->
  forallb (fun kv => json_clean (snd kv)) fields = true -> fields <> [] ->
  forall fuel acc rest,
    NoDup (map fst (acc ++ fields)) ->
    1 + String.length (commas (map member_text fields)) <= fuel ->
    parse_members fuel
      (commas (map member_text fields) +:+ String "}"%char rest) acc
    = Some (JObj (acc ++ fields), rest).
Proof.
  induction 1 as [|[k v] xs Hx Hxs IH]; [congruence|].
  intros Hc _ fuel acc rest Hnd Hf.
  cbn [forallb snd] in Hc, Hx. apply andb_true_iff in Hc as [Hcx Hcxs].
  assert (Hk : k ∉ map fst acc).
  { rewrite map_app in Hnd. apply NoDup_app in Hnd as (_ & Hd & _).
    intros Hin. apply (Hd k Hin). cbn [map fst]. apply list_elem_of_here. }
  assert (Hlen : String.length (ser v) <= String.length (member_text (k, v))).
  { unfold member_text. rewrite !length_app. cbn [snd]. lia. }
  destruct fuel as [|f]; [lia|].
  destruct xs as [|y ys].
  - cbn [map] in *. rewrite commas_one in *.
    unfold member_text, quote. cbn [fst snd]. flatten_text.
    rewrite parse_members_S, parse_chars_escape.
    cbn [mbind option_bind skip_ws is_ws Ascii.eqb Bool.eqb].
    rewrite (Hx Hcx f) by (reflexivity || lia).
    cbn [mbind option_bind skip_ws is_ws Ascii.eqb Bool.eqb].
    rewrite (obj_set_fresh k v acc Hk). reflexivity.
  - cbn [map] in Hf |- *. rewrite commas_cons in Hf |- *.
    rewrite length_app in Hf. cbn [String.length] in Hf.
    change (member_text y :: map member_text ys)
      with (map member_text (y :: ys)) in *.
    unfold member_text at 1, quote. cbn [fst snd]. flatten_text.
    rewrite parse_members_S, parse_chars_escape.
    cbn [mbind option_bind skip_ws is_ws Ascii.eqb Bool.eqb].
    rewrite (Hx Hcx f) by (reflexivity || lia).
    cbn [mbind option_bind skip_ws is_ws Ascii.eqb Bool.eqb].
    rewrite (obj_set_fresh k v acc Hk).
    rewrite IH; [| assumption | congruence | | lia].
    + rewrite <- List.app_assoc. reflexivity.
    + rewrite <- List.app_assoc. exact Hnd.
Qed.

Lemma array_dispatch (fuel : nat) (c : ascii) (s : string) :
  value_start c = true ->
  parse_value (S fuel) (String "["%char (String c s))
  = parse_items fuel (String c s) [].
Proof.
  intros H. destruct (value_start_facts c H) as (Hw & Hb & _).
  rewrite parse_value_S by reflexivity. cbn [Ascii.eqb Bool.eqb].
  rewrite (skip_ws_start c s Hw), Hb. reflexivity.
Qed.

Lemma object_dispatch (fuel : nat) (s : string) :
  parse_value (S fuel) (String "{"%char (String dquote s))
  = parse_members fuel (String dquote s) [].
Proof. rewrite parse_value_S by reflexivity. reflexivity. Qed.

Lemma items_start (x : jsval) (xs : list jsval) :
  exists c s, commas (map ser (x :: xs)) = String c s /\ value_start c = true.
Proof.
  destruct (ser_start x) as (c & s & E & Hc).
  destruct xs as [|y ys]; cbn [map].
  - exists c, s. rewrite commas_one. auto.
  - rewrite commas_cons, E, app_cons. eexists _, _. split; [reflexivity|exact Hc].
Qed.

Lemma members_start (kv : string * jsval) (l : list (string * jsval)) :
  exists s, commas (map member_text (kv :: l)) = String dquote s.
Proof.
  destruct l as [|y ys]; cbn [map].
  - rewrite commas_one. unfold member_text, quote. rewrite app_cons.
    eexists. reflexivity.
  - rewrite commas_cons. unfold member_text at 1, quote. rewrite app_cons.
    eexists. reflexivity.
Qed.

(** Every clean value is read back from its text. *)
Lemma round_trip (v : jsval) : json_clean v = true -> round_trips v.
Proof.
  induction v as [| |b|n|str|items IH|fields IH] using jsval_ind';
    intros Hc fuel rest Hf Hr.
  - discriminate Hc.
  - destruct fuel as [|f]; [cbn in Hf; lia|].
    change (ser JNull) with "null". flatten_text.
    rewrite parse_value_S by reflexivity. reflexivity.
  - destruct fuel as [|f]; [destruct b; cbn in Hf; lia|].
    destruct b; [change (ser (JBool true)) with "true"
                |change (ser (JBool false)) with "false"];
      flatten_text; rewrite parse_value_S by reflexivity; reflexivity.
  - destruct (ser_num_head n) as (c & s & E & Hcn).
    assert (Hp := parse_number_ser n rest Hr).
    cbn [ser] in *. rewrite E in Hf, Hp |- *. rewrite app_cons in Hp |- *.
    destruct fuel as [|f]; [cbn in Hf; lia|].
    rewrite parse_value_number by exact Hcn. exact Hp.
  - destruct fuel as [|f]; [cbn in Hf; lia|].
    cbn [ser]. unfold quote. flatten_text.
    rewrite parse_value_S by reflexivity. rewrite parse_chars_escape.
    reflexivity.
  - cbn [json_clean] in Hc. rewrite ser_arr in Hf |- *.
    cbn [String.length] in Hf. rewrite length_app in Hf.
    cbn [String.length] in Hf.
    destruct fuel as [|f]; [lia|].
    destruct items as [|x xs].
    + cbn [map commas]. flatten_text.
      rewrite parse_value_S by reflexivity. reflexivity.
    + flatten_text.
      destruct (items_start x xs) as (c & s & E & Hs).
      assert (Hi := parse_items_ok (x :: xs) IH Hc ltac:(congruence) f [] rest
                      ltac:(lia)).
      rewrite E in Hi |- *. rewrite app_cons in Hi |- *.
      rewrite array_dispatch by exact Hs. exact Hi.
  - cbn [json_clean] in Hc. apply andb_true_iff in Hc as [Hc Hnd].
    apply bool_decide_eq_true in Hnd.
    rewrite (ser_obj fields Hc) in Hf |- *.
    cbn [String.length] in Hf. rewrite length_app in Hf.
    cbn [String.length] in Hf.
    destruct fuel as [|f]; [lia|].
    destruct fields as [|kv l].
    + cbn [map commas]. flatten_text.
      rewrite parse_value_S by reflexivity. reflexivity.
    + flatten_text.
      destruct (members_start kv l) as (s & E).
      assert (Hm := parse_members_ok (kv :: l) IH Hc ltac:(congruence) f []
                      rest Hnd ltac:(lia)).
      rewrite E in Hm |- *. rewrite app_cons in Hm |- *.
      rewrite object_dispatch. exact Hm.
Qed.

(** [JSON.parse(JSON.stringify(v))] is [v] for every clean value. *)
Theorem parse_stringify (v : jsval) :
  json_clean v = true ->
  exists text, stringify v = Some text /\ parse text = Some v.
Proof.
  intros Hc. exists (ser v). split.
  - destruct v; try reflexivity. discriminate Hc.
  - unfold parse.
    assert (H := round_trip v Hc (S (String.length (ser v))) EmptyString
                   ltac:(lia) eq_refl).
    rewrite app_nil_r in H. rewrite H. reflexivity.
Qed.
End JSONFacts.

(** ** Operations on the wire *)

Lemma Forall_forallb {A : Type} (f : A -> bool) (l : list A) :
  Forall (fun x => f x = true) l -> forallb f l = true.
Proof.
  induction 1 as [|x l Hx _ IH]; [reflexivity|].
  simpl. rewrite Hx, IH. reflexivity.
Qed.

Lemma op_value_clean (o : LiveSetOp.t) :
  Forall (fun v => json_clean v = true) (op_values o) ->
  json_clean (op_value o) = true.
Proof.
  intros H. apply Forall_forallb in H.
  destruct o as [v|v| |vs|vs]; cbn [op_values forallb] in H;
    cbn [op_value Add Remove Clear AddAll ReplaceAll json_clean forallb snd];
    rewrite ?andb_true_r in H; rewrite ?H; reflexivity.
Qed.

(** C6. An operation whose embedded values are clean and of the value
    type is serialized to a text that parses back to the same object, which
    the recognizer accepts and which reads as the same variant. *)
Theorem operation_round_trip (tm : TypeMatcher) (o : LiveSetOp.t) :
  Forall (fun v => json_clean v = true) (op_values o) ->
  Forall (fun v => tm v = true) (op_values o) ->
  exists text,
    JSON.stringify (op_value o) = Some text /\
    JSON.parse text = Some (op_value o) /\
    isLiveSetOp tm (op_value o) = true /\
    view (op_value o) = Some o.
Proof.
  intros Hclean Htyped.
  destruct (JSONFacts.parse_stringify (op_value o) (op_value_clean o Hclean))
    as (text & Hs & Hp).
  exists text. split; [exact Hs|]. split; [exact Hp|]. split.
  - rewrite isLiveSetOp_op_value. apply Forall_forallb, Htyped.
  - apply view_op_value.
Qed.

(** * A set of numbers *)

Definition numbers : config :=
  {| cfg_key := "set"; cfg_typeMatcher := isNumber; cfg_updatesChan := "set" |}.

(** The text a node publishes for [Add(99)]. *)
Definition add99 : string := JSON.ser (Add (JNum 99)).

(** Closed facts are decided by running the model. *)
Ltac by_running := apply (bool_decide_unpack _); vm_compute; exact I.

(** A value that does not survive: [Add(undefined)] comes back without
    its [value] property. *)
Example undefined_is_lost :
  JSON.parse (JSON.ser (Add JUndefined)) = Some (JObj [("_tag", JStr "Add")]).
Proof. vm_compute. reflexivity. Qed.

(** Scenario 1: [add(1)], [add(2)] on a new set. *)
Example scenario_add_add :
  (fun ls => s (_store ls)) <$>
    run numbers (createNumbersLiveSet "set" "set") [CallAdd (JNum 1); CallAdd (JNum 2)]
  = Some {[JNum 1; JNum 2]}.
Proof. by_running. Qed.

(** C2, at its own example.  The subscription is confirmed, [Add(99)]
    arrives while the fetch is pending, the fetch answers 1, 2, 3: the
    message handler has applied [Add(99)] at once, the baseline then
    replaces the Set, and 99 is lost. *)
Theorem seed_load_loses_message :
  (fun ls => (s (_store ls), isLoadingSeed (_store ls))) <$>
    run numbers (createNumbersLiveSet "set" "set")
      [SubSubscribed "set"; SubMessage "set" add99]
  = Some ({[JNum 99]}, true) /\
  (fun ls => s (_store ls)) <$>
    run numbers (createNumbersLiveSet "set" "set")
      [SubSubscribed "set"; SubMessage "set" add99;
       SmembersReply (ReplyValue (JArr [JStr "1"; JStr "2"; JStr "3"]))]
  = Some {[JNum 1; JNum 2; JNum 3]}.
Proof. split; by_running. Qed.

(** Scenario 3: the publish connection reports an error, [add(10)] is
    issued, the connection reports ready; [add(11)] follows. *)
Definition pub_down : state := on_pub_fail (createLiveStore numbers).

(** A store whose publish side is up. *)
Definition pub_up : state := set_pubIsUp true (createLiveStore numbers).

Example pub_up_after_ready :
  on_pub_ready numbers (createLiveStore numbers) = Some pub_up.
Proof. reflexivity. Qed.

Lemma outbound_buffer_fifo_witness :
  exists st1 st2 st3 cmds cmds_next,
    dispatch_all numbers [Add (JNum 10)] (on_pub_fail pub_up) = Some st1 /\
    fanOutBuffer st1 = fanOutBuffer pub_up ++ [Add (JNum 10)] /\
    sent st1 = sent pub_up /\
    on_pub_ready numbers st1 = Some st2 /\
    Forall2 (forwarded numbers) (fanOutBuffer pub_up ++ [Add (JNum 10)]) cmds /\
    sent st2 = sent pub_up ++ concat cmds /\
    fanOutBuffer st2 = [] /\
    dispatch numbers st2 (storeAction (Add (JNum 11))) = Some st3 /\
    forwarded numbers (Add (JNum 11)) cmds_next /\
    sent st3 = sent pub_up ++ concat cmds ++ cmds_next /\
    fanOutBuffer st3 = [].
Proof.
  apply (outbound_buffer_fifo numbers pub_up [Add (JNum 10)] (Add (JNum 11))).
  - constructor.
  - constructor; [by_running|constructor].
  - by_running.
Defined.

Example scenario_buffered_add :
  (fun ls => sent (_store ls)) <$>
    run numbers (createNumbersLiveSet "set" "set")
      [PubReady; PubFail; CallAdd (JNum 10)]
  = Some [Subscribe "set"] /\
  (fun ls => sent (_store ls)) <$>
    run numbers (createNumbersLiveSet "set" "set")
      [PubReady; PubFail; CallAdd (JNum 10); PubReady]
  = Some [Subscribe "set"; Sadd "set" [JSON.stringify (JNum 10)];
          Publish "set" (JSON.stringify (Add (JNum 10)))].
Proof. split; by_running. Qed.

(** A store with one subscriber, registered before any change. *)
Definition one_subscriber : state :=
  set_listeners [new_subscriber] (createLiveStore numbers).

Definition after_add_1 : state :=
  notify (set_s {[JNum 1]} (set_fanOutBuffer [Add (JNum 1)] one_subscriber)).

Lemma primitive_set_elements (set : ISet) :
  forallb primitive (elements set) = true -> primitive_set set.
Proof.
  rewrite forallb_forall. intros H x Hx.
  apply H, list_elem_of_In, elem_of_elements, Hx.
Qed.

Lemma isNumber_primitive : primitive_matcher isNumber.
Proof. intros v H. destruct v; try discriminate H; reflexivity. Qed.

Lemma isString_primitive : primitive_matcher isString.
Proof. intros v H. destruct v; try discriminate H; reflexivity. Qed.

Lemma subscriber_notified_iff_new_witness :
  exists l',
    listeners after_add_1 !! 0%nat = Some l' /\
    lastSet l' = last (calls l') /\
    calls l' = if bool_decide (last (calls new_subscriber) = Some (s after_add_1))
               then calls new_subscriber
               else calls new_subscriber ++ [s after_add_1].
Proof.
  apply (subscriber_notified_iff_new numbers one_subscriber after_add_1
           (storeAction (Add (JNum 1))) 0%nat new_subscriber).
  - apply isNumber_primitive.
  - apply primitive_set_elements. vm_compute. reflexivity.
  - by_running.
  - reflexivity.
  - reflexivity.
Defined.

(** C5 as stated fails on the first action after a registration: [remove(5)]
    on the empty set leaves it empty, and the subscriber, which had not
    been invoked, is invoked with the empty set. *)
Lemma unchanged_set_still_notified :
  exists st',
    dispatch numbers one_subscriber (storeAction (Remove (JNum 5))) = Some st' /\
    s st' = s one_subscriber /\
    calls <$> listeners one_subscriber = [[]] /\
    calls <$> listeners st' = [[∅]].
Proof.
  exists (notify (set_fanOutBuffer [Remove (JNum 5)] one_subscriber)).
  repeat split; by_running.
Qed.





Lemma reducer_frame_witness :
  (forall st', reducer numbers pub_down (storeAction (FanOut (Add (JNum 1)))) = Some st' ->
               s st' = s pub_down) /\
  (forall st', dispatch numbers pub_down (storeAction (FanOut (Add (JNum 1)))) = Some st' ->
               s st' = s pub_down) /\
  ((pubIsUp pub_down = true -> fanOutBuffer pub_down = []) ->
   exists st', reducer numbers pub_down (storeAction (FanOut (Add (JNum 1)))) = Some st') /\
  (isOp numbers (prop "type" (storeAction (FanOut (Add (JNum 1))))) = false /\
   isFanIn numbers (prop "type" (storeAction (FanOut (Add (JNum 1))))) = false).
Proof.
  apply (reducer_frame numbers pub_down (storeAction (FanOut (Add (JNum 1))))).
  left. by_running.
Defined.

(** The store once the subscription is confirmed, and then holding 7. *)
Definition loading : state := on_subscribe numbers "set" (createLiveStore numbers).
Definition loading_7 : state := set_s {[JNum 7]} loading.

Lemma seed_baseline_not_strings_witness :
  exists st1,
    seed_baseline numbers (ReplyValue (JArr [JNum 1])) loading_7 = Some st1 /\
    s st1 = ∅ /\
    (fanInBuffer loading_7 = [] ->
     exists st2,
       on_smembers numbers (ReplyValue (JArr [JNum 1])) loading_7 = Some st2 /\
       s st2 = ∅).
Proof.
  apply (seed_baseline_not_strings numbers loading_7 (JArr [JNum 1])).
  reflexivity.
Defined.

Lemma fetch_failure_passes_silently_witness :
  on_smembers numbers ReplyErr loading_7 = Some (set_isLoadingSeed false loading_7).
Proof. apply (fetch_failure_passes_silently numbers loading_7). reflexivity. Defined.

(** Scenario 5: a callback registered once the seed load is over, then a
    second seed load and a change of the Set. *)
Definition seed_events : list event :=
  [SubSubscribed "set"; SmembersReply (ReplyValue (JArr [JStr "1"; JStr "2"]))].

Definition seeded : RedisLiveSet :=
  default (createNumbersLiveSet "set" "set")
    (run numbers (createNumbersLiveSet "set" "set") seed_events).

Definition later : list event :=
  [SubSubscribed "set"; SmembersReply (ReplyValue (JArr [JStr "3"])); CallAdd (JNum 4)].

Definition seeded_later : RedisLiveSet :=
  default seeded (run numbers (onMembersInit 0 seeded) later).

(** A callback registered while the first fetch has failed: the second
    seed load is the first to load the members. *)
Definition failed_events : list event :=
  [SubSubscribed "set"; SmembersReply ReplyErr; CallAdd (JNum 9)].

Definition unseeded : RedisLiveSet :=
  default (createNumbersLiveSet "set" "set")
    (run numbers (createNumbersLiveSet "set" "set") failed_events).

Definition unseeded_later : RedisLiveSet :=
  default unseeded (run numbers (onMembersInit 0 unseeded) later).

Lemma onMembersInit_exactly_once_witness :
  (_membersInitDone seeded = existsb loads seed_events /\
   if existsb loads seed_events then
     init_calls_of 0 (onMembersInit 0 seeded) = [s (_store seeded)] /\
     init_calls_of 0 seeded_later = [s (_store seeded)]
   else
     init_calls_of 0 (onMembersInit 0 seeded) = [] /\
     init_calls_of 0 seeded_later
     = match first_seed numbers (onMembersInit 0 seeded) later with
       | Some set => [set]
       | None => []
       end /\
     (existsb loads later = true ->
      exists set, first_seed numbers (onMembersInit 0 seeded) later = Some set)) /\
  (_membersInitDone unseeded = existsb loads failed_events /\
   if existsb loads failed_events then
     init_calls_of 0 (onMembersInit 0 unseeded) = [s (_store unseeded)] /\
     init_calls_of 0 unseeded_later = [s (_store unseeded)]
   else
     init_calls_of 0 (onMembersInit 0 unseeded) = [] /\
     init_calls_of 0 unseeded_later
     = match first_seed numbers (onMembersInit 0 unseeded) later with
       | Some set => [set]
       | None => []
       end /\
     (existsb loads later = true ->
      exists set, first_seed numbers (onMembersInit 0 unseeded) later = Some set)).
Proof.
  split.
  - apply (onMembersInit_exactly_once numbers seed_events later 0 seeded seeded_later).
    + by_running.
    + repeat constructor; discriminate.
    + repeat constructor; discriminate.
    + by_running.
  - apply (onMembersInit_exactly_once numbers failed_events later 0
             unseeded unseeded_later).
    + by_running.
    + repeat constructor; discriminate.
    + repeat constructor; discriminate.
    + by_running.
Defined.

Example scenario_init_after_seed :
  init_calls_of 0 seeded = [] /\
  init_calls_of 0 (onMembersInit 0 seeded) = [{[JNum 1; JNum 2]}] /\
  init_calls_of 0 seeded_later = [{[JNum 1; JNum 2]}] /\
  s (_store seeded_later) = {[JNum 3; JNum 4]}.
Proof. repeat split; by_running. Qed.

Example scenario_init_after_failed_fetch :
  _membersInitDone unseeded = false /\
  init_calls_of 0 (onMembersInit 0 unseeded) = [] /\
  init_calls_of 0 unseeded_later = [{[JNum 3]}] /\
  s (_store unseeded_later) = {[JNum 3; JNum 4]}.
Proof. repeat split; by_running. Qed.

Lemma operation_round_trip_witness :
  exists text,
    JSON.stringify (op_value (LiveSetOp.AddAll [JNum 10; JNum (-3)])) = Some text /\
    JSON.parse text = Some (op_value (LiveSetOp.AddAll [JNum 10; JNum (-3)])) /\
    isLiveSetOp isNumber (op_value (LiveSetOp.AddAll [JNum 10; JNum (-3)])) = true /\
    view (op_value (LiveSetOp.AddAll [JNum 10; JNum (-3)]))
    = Some (LiveSetOp.AddAll [JNum 10; JNum (-3)]).
Proof.
  apply (operation_round_trip isNumber (LiveSetOp.AddAll [JNum 10; JNum (-3)]));
    repeat constructor.
Defined.

Lemma apply_five_variants_witness :
  exists set',
    apply {[JNum 1; JNum 2]} (op_value (LiveSetOp.Remove (JNum 2))) = Some set' /\
    (forall x, x ∈ set' <-> x ∈ ({[JNum 1; JNum 2]} : ISet) /\ x <> JNum 2) /\
    (JNum 2 ∉ ({[JNum 1; JNum 2]} : ISet) -> set' = {[JNum 1; JNum 2]}).
Proof.
  apply (apply_five_variants {[JNum 1; JNum 2]} (LiveSetOp.Remove (JNum 2))).
  repeat constructor.
Defined.

(** * Further properties of the code *)

(** ** The operations among themselves *)

Lemma denote_twice (set : ISet) (o : LiveSetOp.t) :
  denote (denote set o) o = denote set o.
Proof.
  destruct o as [v|v| |vs|vs]; simpl; try reflexivity; apply set_eq; intros x.
  - rewrite !elem_of_union. tauto.
  - rewrite !elem_of_difference. tauto.
  - rewrite !elem_of_union. tauto.
Qed.

(** X1. Every recognized operation is idempotent: applied a second time,
    as when a node receives the broadcast of an operation it has applied,
    it gives the Set the first application gave. *)
Theorem apply_idempotent (tm : TypeMatcher) (set : ISet) (v : jsval) :
  isLiveSetOp tm v = true ->
  exists set', apply set v = Some set' /\ apply set' v = Some set'.
Proof.
  intros H. destruct (isLiveSetOp_view tm v H) as (o & Hv & _).
  exists (denote set o). rewrite !apply_view, Hv. simpl.
  rewrite denote_twice. auto.
Qed.

Lemma apply_idempotent_witness :
  exists set',
    apply {[JNum 1]} (Remove (JNum 1)) = Some set' /\
    apply set' (Remove (JNum 1)) = Some set'.
Proof. apply (apply_idempotent isNumber). reflexivity. Defined.

(** Two operations applied one after the other. *)
Definition apply2 (set : ISet) (first second : jsval) : option ISet :=
  set' ← apply set first; apply set' second.

(** X2. How the variants compose: [ReplaceAll] is [Clear] followed by
    [AddAll] (the pair the store write of [ReplaceAll] sends), [AddAll] of
    one value is [Add], two [AddAll] in a row are one [AddAll] of both
    lists, [Add] after [Remove] of the same value is [Add] alone, and
    [Remove] after [Add] is [Remove] alone. *)
Theorem apply_composition (set : ISet) (v : jsval) (vs ws : list jsval) :
  apply2 set Clear (AddAll vs) = apply set (ReplaceAll vs) /\
  apply set (AddAll [v]) = apply set (Add v) /\
  apply2 set (AddAll vs) (AddAll ws) = apply set (AddAll (vs ++ ws)) /\
  apply2 set (Remove v) (Add v) = apply set (Add v) /\
  apply2 set (Add v) (Remove v) = apply set (Remove v).
Proof.
  unfold apply2.
  change Clear with (op_value LiveSetOp.Clear).
  change (AddAll vs) with (op_value (LiveSetOp.AddAll vs)).
  change (AddAll ws) with (op_value (LiveSetOp.AddAll ws)).
  change (AddAll [v]) with (op_value (LiveSetOp.AddAll [v])).
  change (AddAll (vs ++ ws)) with (op_value (LiveSetOp.AddAll (vs ++ ws))).
  change (ReplaceAll vs) with (op_value (LiveSetOp.ReplaceAll vs)).
  change (Add v) with (op_value (LiveSetOp.Add v)).
  change (Remove v) with (op_value (LiveSetOp.Remove v)).
  rewrite !apply_op_value. cbn [mbind option_bind].
  rewrite !apply_op_value. cbn [denote].
  repeat split; f_equal; apply set_eq; intros x.
  - rewrite elem_of_union, elem_of_empty. tauto.
  - rewrite !elem_of_union, elem_of_list_to_set, list_elem_of_singleton,
      elem_of_singleton. tauto.
  - rewrite !elem_of_union, !elem_of_list_to_set, elem_of_app. tauto.
  - rewrite !elem_of_union, elem_of_difference, elem_of_singleton.
    destruct (decide (x = v)); tauto.
  - rewrite !elem_of_difference, elem_of_union, elem_of_singleton. tauto.
Qed.

(** ** The five recognizers *)

Lemma isClear_eq (v : jsval) : LiveSetOp.isClear v = has_tag "Clear" v.
Proof.
  unfold LiveSetOp.isClear, hasFields. simpl.
  rewrite isValue_str, has_tag_eq, andb_true_r. destruct v; reflexivity.
Qed.

Lemma values_shape (tag : string) (tm : TypeMatcher) (v : jsval) :
  hasFields [("_tag", isValue (JStr tag)); ("values", isArrayOf tm)] v
  = has_tag tag v && isArrayOf tm (prop "values" v).
Proof.
  unfold hasFields. simpl. rewrite isValue_str, has_tag_eq, andb_true_r.
  destruct v; simpl; reflexivity.
Qed.

(** How many of the five recognizers accept a value. *)
Definition accepting (tm : TypeMatcher) (v : jsval) : nat :=
  Nat.b2n (LiveSetOp.isAdd tm v) + Nat.b2n (LiveSetOp.isRemove tm v)
  + Nat.b2n (LiveSetOp.isClear v) + Nat.b2n (LiveSetOp.isAddAll tm v)
  + Nat.b2n (LiveSetOp.isReplaceAll tm v).

(** X3. The five variant recognizers exclude one another: no value is
    accepted by two of them, and [isLiveSetOp] accepts a value exactly
    when one of them does. *)
Theorem recognizers_exclusive (tm : TypeMatcher) (v : jsval) :
  accepting tm v <= 1 /\
  (isLiveSetOp tm v = true <-> accepting tm v = 1).
Proof.
  unfold accepting. rewrite isLiveSetOp_shape. unfold op_shape.
  unfold LiveSetOp.isAdd, LiveSetOp.isRemove, LiveSetOp.isAddAll,
    LiveSetOp.isReplaceAll.
  rewrite !fan_shape, !values_shape, isClear_eq, !has_tag_eq.
  destruct (prop "_tag" v) as [| | | |t| |]; simpl;
    try (split; [lia|split; [discriminate|lia]]).
  case_tag t; rewrite ?Nat.add_0_r;
    try (split; [lia|split; [discriminate|lia]]);
    try (split; [lia|split; auto]).
  - destruct (tm (prop "value" v)); simpl; split; try lia;
      split; (discriminate || lia || auto).
  - destruct (tm (prop "value" v)); simpl; split; try lia;
      split; (discriminate || lia || auto).
  - destruct (isArrayOf tm (prop "values" v)); simpl; split; try lia;
      split; (discriminate || lia || auto).
  - destruct (isArrayOf tm (prop "values" v)); simpl; split; try lia;
      split; (discriminate || lia || auto).
Qed.

(** ** What every event does to a store *)

Section moves.
Variable cfg : config.
#[local] Abbreviation key := (cfg_key cfg).
#[local] Abbreviation typeMatcher := (cfg_typeMatcher cfg).
#[local] Abbreviation updatesChan := (cfg_updatesChan cfg).

(** The reducer either keeps the Set or applies a recognized operation. *)
Lemma reducer_s (st st' : state) (action : jsval) :
  reducer cfg st action = Some st' ->
  s st' = s st \/
  exists v, isOp cfg v = true /\ apply (s st) v = Some (s st').
Proof.
  unfold reducer.
  destruct (isOp cfg (prop "type" action)) eqn:Hop.
  - destruct (apply (s st) (prop "type" action)) as [newS|] eqn:Ha;
      [|discriminate]. simpl.
    destruct (fanOut cfg (prop "type" action) st) as [st1|]; [|discriminate].
    intros [= <-]. right. exists (prop "type" action). auto.
  - destruct (isFanIn cfg (prop "type" action)) eqn:Hin.
    + rewrite isFanIn_eq in Hin. apply andb_true_iff in Hin as [_ Hv].
      destruct (apply (s st) (prop "value" (prop "type" action))) as [newS|] eqn:Ha;
        [|discriminate].
      intros [= <-]. right. exists (prop "value" (prop "type" action)). auto.
    + destruct (isFanOut cfg (prop "type" action)).
      * intros H. left. apply (fanOut_s cfg _ _ _ H).
      * intros [= <-]. left. reflexivity.
Qed.

Lemma fanOut_sent (v : jsval) (st st' : state) :
  fanOut cfg v st = Some st' ->
  sent st' = sent st \/
  exists cmds, forward cfg v = Some cmds /\ sent st' = sent st ++ cmds.
Proof.
  unfold fanOut. destruct (pubIsUp st).
  - destruct (fanOutBuffer st); [|discriminate].
    destruct (forward cfg v) as [cmds|]; [|discriminate].
    intros [= <-]. right. exists cmds. auto.
  - intros [= <-]. left. reflexivity.
Qed.

(** The reducer sends nothing, or forwards one recognized operation. *)
Lemma reducer_sent (st st' : state) (action : jsval) :
  reducer cfg st action = Some st' ->
  sent st' = sent st \/
  exists v cmds,
    isOp cfg v = true /\ forward cfg v = Some cmds /\
    sent st' = sent st ++ cmds.
Proof.
  unfold reducer.
  destruct (isOp cfg (prop "type" action)) eqn:Hop.
  - destruct (apply (s st) (prop "type" action)) as [newS|]; [|discriminate].
    simpl.
    destruct (fanOut cfg (prop "type" action) st) as [st1|] eqn:E;
      [|discriminate].
    intros [= <-]. simpl.
    destruct (fanOut_sent _ _ _ E) as [H|(cmds & Hf & H)]; [auto|].
    right. exists (prop "type" action), cmds. auto.
  - destruct (isFanIn cfg (prop "type" action)).
    + destruct (apply (s st) (prop "value" (prop "type" action)));
        [|discriminate].
      intros [= <-]. left. reflexivity.
    + destruct (isFanOut cfg (prop "type" action)) eqn:Hout.
      * rewrite isFanOut_eq in Hout. apply andb_true_iff in Hout as [_ Hv].
        intros E. destruct (fanOut_sent _ _ _ E) as [H|(cmds & Hf & H)]; [auto|].
        right. exists (prop "value" (prop "type" action)), cmds. auto.
      * intros [= <-]. left. reflexivity.
Qed.

Lemma dispatch_reducer (st st' : state) (action : jsval) :
  dispatch cfg st action = Some st' ->
  exists st1, reducer cfg st action = Some st1 /\ st' = notify st1.
Proof.
  unfold dispatch.
  destruct (prop "type" action); try discriminate;
    (destruct (reducer cfg st action) as [st1|]; [|discriminate]);
    intros [= <-]; exists st1; auto.
Qed.

(** The steps a handler is made of, by what they do to the Set, to the
    listeners and to the calls made: a dispatch, an update of the
    variables of the closure, the fetch of the members, a new listener. *)
Inductive move : state -> state -> Prop :=
  | move_dispatch st action st' :
      dispatch cfg st action = Some st' -> move st st'
  | move_internal st st' :
      s st' = s st -> listeners st' = listeners st -> sent st' = sent st ->
      move st st'
  | move_fetch st st' :
      s st' = s st -> listeners st' = listeners st ->
      sent st' = sent st ++ [Smembers key] ->
      move st st'
  | move_listener st st' :
      s st' = s st -> listeners st' = listeners st ++ [new_subscriber] ->
      sent st' = sent st ->
      move st st'.

Lemma forEachM_moves (wrap : jsval -> jsval) (l : list jsval) (st st' : state) :
  forEachM (fun st op => dispatch cfg st (storeAction (wrap op))) l st = Some st' ->
  rtc move st st'.
Proof.
  revert st. induction l as [|x l IH]; intros st; simpl.
  - intros [= <-]. apply rtc_refl.
  - destruct (dispatch cfg st (storeAction (wrap x))) as [st1|] eqn:E;
      [|discriminate].
    simpl. intros H. eapply rtc_l; [apply (move_dispatch _ _ _ E)|apply IH, H].
Qed.

Lemma on_pub_ready_moves (st st' : state) :
  on_pub_ready cfg st = Some st' -> rtc move st st'.
Proof.
  unfold on_pub_ready, flushFanOutBuffer. intros H.
  eapply rtc_l; [|apply (forEachM_moves FanOut _ _ _ H)].
  apply move_internal; reflexivity.
Qed.

Lemma flushFanInBuffer_moves (st st' : state) :
  flushFanInBuffer cfg st = Some st' -> rtc move st st'.
Proof.
  unfold flushFanInBuffer. intros H.
  eapply rtc_l; [|apply (forEachM_moves FanIn _ _ _ H)].
  apply move_internal; reflexivity.
Qed.

Lemma on_smembers_moves (r : reply) (st st' : state) :
  on_smembers cfg r st = Some st' -> rtc move st st'.
Proof.
  unfold on_smembers.
  destruct (seed_baseline cfg r st) as [st1|] eqn:E1; [|discriminate]. simpl.
  destruct (flushFanInBuffer cfg st1) as [st2|] eqn:E2; [|discriminate]. simpl.
  intros [= <-].
  assert (H1 : rtc move st st1).
  { destruct r; simpl in E1.
    - injection E1 as <-. apply rtc_refl.
    - destruct (if isArrayOf isString value
                then items ← array_map string_of value; mapM JSON.parse items
                else Some []) as [newSet|]; [|discriminate].
      apply rtc_once, (move_dispatch _ _ _ E1). }
  etrans; [exact H1|]. etrans; [apply (flushFanInBuffer_moves _ _ E2)|].
  apply rtc_once, move_internal; reflexivity.
Qed.

Lemma on_message_moves (ch message : string) (st st' : state) :
  on_message cfg ch message st = Some st' -> rtc move st st'.
Proof.
  unfold on_message.
  destruct (String.eqb ch updatesChan); [|intros [= <-]; apply rtc_refl].
  destruct (JSON.parse message) as [op|]; [|discriminate]. simpl.
  destruct (own_property "hasOwnProperty" op); [discriminate|].
  destruct (isOp cfg op); [|intros [= <-]; apply rtc_refl].
  intros E. apply rtc_once, (move_dispatch _ _ _ E).
Qed.

Lemma step_moves (ls ls' : RedisLiveSet) (e : event) :
  step cfg ls e = Some ls' -> rtc move (_store ls) (_store ls').
Proof.
  assert (Hd : forall type,
            store_dispatch cfg type ls = Some ls' ->
            rtc move (_store ls) (_store ls')).
  { intros type. unfold store_dispatch.
    destruct (dispatch cfg (_store ls) (JObj [("type", type)])) as [st|] eqn:E;
      [|discriminate].
    intros [= <-]. apply rtc_once, (move_dispatch _ _ _ E). }
  destruct e as [v|v|vs| |vs| |cb| | | |ch|r|ch msg]; simpl;
    try (apply Hd).
  - intros [= <-]. apply rtc_once, move_listener; reflexivity.
  - intros [= <-]. unfold onMembersInit.
    destruct (_membersInitDone ls); apply rtc_refl.
  - destruct (on_pub_ready cfg (_store ls)) as [st|] eqn:E; [|discriminate].
    intros [= <-]. apply (on_pub_ready_moves _ _ E).
  - intros [= <-]. apply rtc_once, move_internal; reflexivity.
  - intros [= <-]. apply rtc_once, move_internal; reflexivity.
  - intros [= <-]. simpl. unfold on_subscribe.
    destruct (String.eqb ch updatesChan); [|apply rtc_refl].
    apply rtc_once, move_fetch; reflexivity.
  - unfold seed_load_done.
    destruct (on_smembers cfg r (_store ls)) as [st|] eqn:E; [|discriminate].
    simpl. destruct r; intros [= <-]; unfold onMembersLoaded; simpl;
      try destruct (_membersInitDone ls);
      apply (on_smembers_moves _ _ _ E).
  - destruct (on_message cfg ch msg (_store ls)) as [st|] eqn:E; [|discriminate].
    intros [= <-]. apply (on_message_moves _ _ _ _ E).
Qed.

Lemma run_moves (evs : list event) (ls ls' : RedisLiveSet) :
  run cfg ls evs = Some ls' -> rtc move (_store ls) (_store ls').
Proof.
  revert ls. induction evs as [|e evs IH]; intros ls; unfold run; simpl.
  - intros [= <-]. apply rtc_refl.
  - destruct (step cfg ls e) as [ls1|] eqn:E; [|discriminate]. simpl.
    intros H. etrans; [apply (step_moves _ _ _ E)|apply IH, H].
Qed.

(** A property kept by every move holds along every run. *)
Lemma run_invariant (I : state -> Prop) (evs : list event)
    (ls ls' : RedisLiveSet) :
  (forall st st', move st st' -> I st -> I st') ->
  run cfg ls evs = Some ls' -> I (_store ls) -> I (_store ls').
Proof.
  intros Hkeep Hr.
  induction (run_moves _ _ _ Hr) as [|x y z Hxy _ IH]; [auto|].
  intros Hx. apply IH, (Hkeep x y Hxy Hx).
Qed.
End moves.

(** ** What holds of every reachable store *)

Fixpoint no_repeat (l : list ISet) : Prop :=
  match l with
  | [] => True
  | x :: l' =>
      match l' with
      | [] => True
      | y :: _ => x <> y
      end /\ no_repeat l'
  end.

Lemma no_repeat_snoc (l : list ISet) (x : ISet) :
  no_repeat l -> last l <> Some x -> no_repeat (l ++ [x]).
Proof.
  induction l as [|a l IH]; simpl; [auto|].
  intros [Ha Hl] Hlast. destruct l as [|b l].
  - simpl. split; [|auto]. intros ->. apply Hlast. reflexivity.
  - split; [exact Ha|]. apply IH; [exact Hl|exact Hlast].
Qed.

Section invariants.
Variable cfg : config.
#[local] Abbreviation key := (cfg_key cfg).
#[local] Abbreviation typeMatcher := (cfg_typeMatcher cfg).
#[local] Abbreviation updatesChan := (cfg_updatesChan cfg).

Definition typed_set (set : ISet) : Prop :=
  forall x, x ∈ set -> typeMatcher x = true.

Lemma denote_typed (set : ISet) (o : LiveSetOp.t) :
  forallb typeMatcher (op_values o) = true ->
  typed_set set -> typed_set (denote set o).
Proof.
  intros Ho Hs x.
  assert (Hin : forall y, y ∈ op_values o -> typeMatcher y = true).
  { intros y Hy. rewrite forallb_forall in Ho. apply Ho, list_elem_of_In, Hy. }
  destruct o as [v|v| |vs|vs]; simpl in *.
  - rewrite elem_of_union, elem_of_singleton. intros [Hx| ->]; [auto|].
    apply Hin, list_elem_of_here.
  - rewrite elem_of_difference. intros [Hx _]. auto.
  - rewrite elem_of_empty. contradiction.
  - rewrite elem_of_union, elem_of_list_to_set. intros [Hx|Hx]; auto.
  - rewrite elem_of_list_to_set. auto.
Qed.

Lemma move_typed (st st' : state) :
  move cfg st st' -> typed_set (s st) -> typed_set (s st').
Proof.
  intros [st0 action st1 Hd|st0 st1 -> _ _|st0 st1 -> _ _|st0 st1 -> _ _];
    auto.
  destruct (dispatch_reducer cfg _ _ _ Hd) as (st2 & Hr & ->). simpl.
  destruct (reducer_s cfg _ _ _ Hr) as [->|(v & Hv & Ha)]; [auto|].
  destruct (isLiveSetOp_view _ _ Hv) as (o & Hview & Ho).
  rewrite apply_view, Hview in Ha. injection Ha as <-.
  intros Hs. apply (denote_typed _ _ Ho Hs).
Qed.

(** X4. The Set of a live set only ever holds values its type matcher
    accepts, whatever was asked of it and whatever arrived: an operation
    with any other value is never applied. *)
Theorem set_holds_typed_values (evs : list event) (ls : RedisLiveSet) :
  run cfg (new_RedisLiveSet cfg) evs = Some ls ->
  forall x, x ∈ s (_store ls) -> typeMatcher x = true.
Proof.
  intros Hr.
  apply (run_invariant cfg (fun st => typed_set (s st)) evs _ ls move_typed Hr).
  intros x. simpl. rewrite elem_of_empty. contradiction.
Qed.

(** A store write: one of the four commands that change the key. *)
Definition is_write (c : command) : bool :=
  match c with
  | Sadd k _ | Srem k _ | Del k | MultiDelSadd k _ => String.eqb k key
  | Publish _ _ | Smembers _ | Subscribe _ => false
  end.

(** What the calls of a store come in: the subscription, a fetch of the
    members, or a write to the key with the publish that announces it. *)
Definition block_ok (b : list command) : Prop :=
  b = [Subscribe updatesChan] \/ b = [Smembers key] \/
  exists w m, is_write w = true /\ b = [w; Publish updatesChan (Some m)].

Lemma isOp_forward_block (v : jsval) :
  isOp cfg v = true ->
  exists w,
    is_write w = true /\
    forward cfg v = Some [w; Publish updatesChan (Some (JSON.ser v))].
Proof.
  unfold isOp, forward, store_write. rewrite isLiveSetOp_shape.
  unfold op_shape. rewrite !has_tag_eq.
  destruct v as [| | | | | |fields]; try discriminate.
  destruct (prop "_tag" (JObj fields)) as [| | | |t| |]; try discriminate.
  case_tag t; try discriminate; intros H;
    try (eexists; split; [|reflexivity]; simpl; apply String.eqb_refl).
  - destruct (lookup_field "values" fields); try discriminate H.
    eexists; split; [|reflexivity]; simpl; apply String.eqb_refl.
  - destruct (lookup_field "values" fields); try discriminate H.
    eexists; split; [|reflexivity]; simpl; apply String.eqb_refl.
Qed.

Definition in_blocks (st : state) : Prop :=
  exists blocks, sent st = concat blocks /\ Forall block_ok blocks.

Lemma in_blocks_snoc (st st' : state) (b : list command) :
  block_ok b -> sent st' = sent st ++ b -> in_blocks st -> in_blocks st'.
Proof.
  intros Hb Hs (blocks & E & Hall). exists (blocks ++ [b]). split.
  - rewrite Hs, E, concat_app. simpl. rewrite app_nil_r. reflexivity.
  - apply Forall_app. split; [exact Hall|]. constructor; [exact Hb|constructor].
Qed.

Lemma move_in_blocks (st st' : state) :
  move cfg st st' -> in_blocks st -> in_blocks st'.
Proof.
  intros [st0 action st1 Hd|st0 st1 _ _ Hs|st0 st1 _ _ Hs|st0 st1 _ _ Hs].
  - destruct (dispatch_reducer cfg _ _ _ Hd) as (st2 & Hr & ->).
    destruct (reducer_sent cfg _ _ _ Hr) as [Hs|(v & cmds & Hv & Hf & Hs)].
    + intros (blocks & E & Hall). exists blocks. simpl. rewrite Hs. auto.
    + destruct (isOp_forward_block v Hv) as (w & Hw & Hf').
      rewrite Hf in Hf'. injection Hf' as ->.
      apply (in_blocks_snoc st0 (notify st2)
               [w; Publish updatesChan (Some (JSON.ser v))]); [|exact Hs].
      right. right. eauto.
  - intros (blocks & E & Hall). exists blocks. rewrite Hs. auto.
  - apply (in_blocks_snoc st0 st1 [Smembers key]); [|exact Hs].
    right. left. reflexivity.
  - intros (blocks & E & Hall). exists blocks. rewrite Hs. auto.
Qed.

(** X5. A store talks to Redis in three ways only: the subscription to its
    updates channel, a fetch of the members of its key, and a write to its
    key followed at once by the publish of a text on its updates channel.
    No other key or channel is touched, no write goes unannounced, nothing
    is published without a write. *)
Theorem calls_come_in_blocks (evs : list event) (ls : RedisLiveSet) :
  run cfg (new_RedisLiveSet cfg) evs = Some ls ->
  exists blocks,
    sent (_store ls) = concat blocks /\ Forall block_ok blocks.
Proof.
  intros Hr.
  apply (run_invariant cfg in_blocks evs _ ls move_in_blocks Hr).
  exists [[Subscribe updatesChan]]. split; [reflexivity|].
  constructor; [left; reflexivity|constructor].
Qed.

(** A subscriber seen from outside: never invoked twice in a row with the
    same Set, and, once invoked, last invoked with the Set of the store. *)
Definition subscriber_ok (set : ISet) (l : subscriber) : Prop :=
  lastSet l = last (calls l) /\
  no_repeat (calls l) /\
  (calls l = [] \/ last (calls l) = Some set).

Lemma on_change_ok (set newSet : ISet) (l : subscriber) :
  subscriber_ok set l -> subscriber_ok newSet (on_change newSet l).
Proof.
  intros (Hl & Hn & _).
  assert (Hlast := on_change_last newSet l Hl).
  split; [exact Hlast|]. split.
  - rewrite (on_change_calls newSet l Hl). case_bool_decide as E; [exact Hn|].
    apply no_repeat_snoc; assumption.
  - right. rewrite <- Hlast. reflexivity.
Qed.

Lemma move_subscribers (st st' : state) :
  move cfg st st' ->
  Forall (subscriber_ok (s st)) (listeners st) ->
  Forall (subscriber_ok (s st')) (listeners st').
Proof.
  intros [st0 action st1 Hd|st0 st1 -> -> _|st0 st1 -> -> _|st0 st1 -> -> _];
    auto.
  - rewrite (dispatch_listeners cfg _ _ _ Hd). intros Hall.
    apply Forall_fmap. eapply Forall_impl; [exact Hall|].
    intros l Hl. apply (on_change_ok (s st0)), Hl.
  - intros Hall. apply Forall_app. split; [exact Hall|].
    constructor; [|constructor]. repeat split; simpl; auto.
Qed.

(** X6. Along every run of a set of primitive values, no subscriber is
    invoked twice in a row with equal Sets, and a subscriber that has been
    invoked at all was last invoked with the Set the store holds now: it
    misses no change. *)
Theorem subscribers_track_the_set (evs : list event) (ls : RedisLiveSet) :
  primitive_matcher typeMatcher ->
  run cfg (new_RedisLiveSet cfg) evs = Some ls ->
  Forall
    (fun l => no_repeat (calls l) /\
              (calls l = [] \/ last (calls l) = Some (s (_store ls))))
    (listeners (_store ls)).
Proof.
  intros _ Hr.
  assert (H : Forall (subscriber_ok (s (_store ls))) (listeners (_store ls))).
  { apply (run_invariant cfg
             (fun st => Forall (subscriber_ok (s st)) (listeners st))
             evs _ ls move_subscribers Hr).
    constructor. }
  eapply Forall_impl; [exact H|]. intros l (_ & Hn & Hc). auto.
Qed.
End invariants.

(** ** Local operations *)

Section local_operations.
Variable cfg : config.
#[local] Abbreviation key := (cfg_key cfg).
#[local] Abbreviation typeMatcher := (cfg_typeMatcher cfg).
#[local] Abbreviation updatesChan := (cfg_updatesChan cfg).

Lemma op_value_not_fan (o : LiveSetOp.t) :
  has_tag "FanIn" (op_value o) = false /\ has_tag "FanOut" (op_value o) = false.
Proof. destruct o; rewrite !has_tag_eq; split; reflexivity. Qed.

(** X7. An operation built with a value the type matcher refuses is not
    an action the store knows: dispatched, it changes neither the Set nor
    the buffers and sends nothing; only the listeners run. *)
Theorem ill_typed_operation_ignored (st : state) (o : LiveSetOp.t) :
  forallb typeMatcher (op_values o) = false ->
  dispatch cfg st (storeAction (op_value o)) = Some (notify st).
Proof.
  intros Hbad.
  rewrite dispatch_storeAction by (destruct o; discriminate).
  unfold reducer. change (prop "type" (storeAction (op_value o))) with (op_value o).
  destruct (op_value_not_fan o) as [Hin Hout].
  unfold isOp at 1. rewrite isLiveSetOp_op_value, Hbad.
  rewrite isFanIn_eq, Hin, isFanOut_eq, Hout. reflexivity.
Qed.

(** The Sets a sequence of operations leads through. *)
Definition apply_all (vs : list jsval) (set : ISet) : option ISet :=
  forEachM apply vs set.

Lemma dispatch_all_up (vs : list jsval) (st : state) :
  Forall (fun v => isOp cfg v = true) vs ->
  pubIsUp st = true -> fanOutBuffer st = [] ->
  exists st1 cmds,
    dispatch_all cfg vs st = Some st1 /\
    apply_all vs (s st) = Some (s st1) /\
    mapM (forward cfg) vs = Some cmds /\
    sent st1 = sent st ++ concat cmds /\
    fanOutBuffer st1 = [] /\ pubIsUp st1 = true.
Proof.
  intros Hall. revert st.
  induction Hall as [|v vs Hv _ IH]; intros st Hup Hb.
  - exists st, []. simpl. rewrite app_nil_r. repeat split; auto.
  - destruct (dispatch_op_up cfg st v Hv Hup Hb) as (set' & c & Ha & Hf & Hd).
    destruct (IH (notify (set_s set' (call c st))) Hup Hb)
      as (st1 & cmds & H1 & H2 & H3 & H4 & H5 & H6).
    exists st1, (c :: cmds). unfold dispatch_all, apply_all in *. simpl.
    rewrite Hd, Ha, Hf. simpl. rewrite H3. simpl.
    repeat split; auto.
    rewrite H4. simpl. rewrite <- app_assoc. reflexivity.
Qed.

Lemma dispatch_all_down_s (vs : list jsval) (st : state) :
  Forall (fun v => isOp cfg v = true) vs -> pubIsUp st = false ->
  exists st1,
    dispatch_all cfg vs st = Some st1 /\
    apply_all vs (s st) = Some (s st1) /\
    sent st1 = sent st /\
    fanOutBuffer st1 = fanOutBuffer st ++ vs.
Proof.
  intros Hall. revert st.
  induction Hall as [|v vs Hv _ IH]; intros st Hdown.
  - exists st. rewrite app_nil_r. repeat split; auto.
  - destruct (dispatch_op_down cfg st v Hv Hdown) as (set' & Ha & Hd).
    destruct (IH (notify (set_s set' (set_fanOutBuffer (fanOutBuffer st ++ [v]) st)))
                Hdown) as (st1 & H1 & H2 & H3 & H4).
    exists st1. unfold dispatch_all, apply_all in *. simpl.
    rewrite Hd, Ha. simpl. repeat split; auto.
    rewrite H4. simpl. rewrite <- app_assoc. reflexivity.
Qed.

(** X8. Local operations take effect in the order issued, connected or
    not: the Set becomes what [apply] gives for them one after the other;
    with the publish side up each is forwarded at once, in that order --
    the write of its variant to the key, then the publish of its text --
    and nothing is buffered; with it down nothing is sent and all are
    buffered in that order. *)
Theorem local_operations_in_order (vs : list jsval) (st : state) :
  Forall (fun v => isOp cfg v = true) vs ->
  (pubIsUp st = true -> fanOutBuffer st = []) ->
  exists st1,
    dispatch_all cfg vs st = Some st1 /\
    apply_all vs (s st) = Some (s st1) /\
    if pubIsUp st then
      exists cmds,
        Forall2 (forwarded cfg) vs cmds /\
        sent st1 = sent st ++ concat cmds /\ fanOutBuffer st1 = []
    else sent st1 = sent st /\ fanOutBuffer st1 = fanOutBuffer st ++ vs.
Proof.
  intros Hall Hinv. destruct (pubIsUp st) eqn:Hup.
  - destruct (dispatch_all_up vs st Hall Hup (Hinv eq_refl))
      as (st1 & cmds & H1 & H2 & H3 & H4 & H5 & _).
    exists st1. repeat split; auto. exists cmds.
    split; [apply (mapM_forward_forwarded cfg _ _ Hall H3)|auto].
  - destruct (dispatch_all_down_s vs st Hall Hup) as (st1 & H1 & H2 & H3 & H4).
    exists st1. auto.
Qed.

(** ** From one node to another *)

Lemma clean_typed_op (o : LiveSetOp.t) :
  Forall (fun v => json_clean v = true) (op_values o) ->
  Forall (fun v => typeMatcher v = true) (op_values o) ->
  isOp cfg (op_value o) = true /\
  JSON.parse (JSON.ser (op_value o)) = Some (op_value o).
Proof.
  intros Hc Ht. split.
  - unfold isOp. rewrite isLiveSetOp_op_value. apply Forall_forallb, Ht.
  - destruct (JSONFacts.parse_stringify _ (op_value_clean o Hc)) as (text & Hs & Hp).
    destruct o; injection Hs as <-; exact Hp.
Qed.

(** The builders give objects with the properties of the variant only. *)
Lemma op_value_own (o : LiveSetOp.t) :
  own_property "hasOwnProperty" (op_value o) = false.
Proof. destruct o; reflexivity. Qed.

Lemma stringify_op_value (o : LiveSetOp.t) :
  JSON.stringify (op_value o) = Some (JSON.ser (op_value o)).
Proof. destruct o; reflexivity. Qed.

(** X9. What one node publishes, another applies.  A local operation
    with clean primitive values of the value type, dispatched with the
    publish side up, sends the write of its variant to the key and the
    publish of its text; that text, arriving as a message at any store of
    the same configuration, is accepted and changes its Set by the same
    operation. *)
Theorem published_operation_replicates (o : LiveSetOp.t)
    (sender receiver : state) :
  Forall (fun v => primitive v = true) (op_values o) ->
  Forall (fun v => json_clean v = true) (op_values o) ->
  Forall (fun v => typeMatcher v = true) (op_values o) ->
  pubIsUp sender = true -> fanOutBuffer sender = [] ->
  exists text st1 st2,
    JSON.stringify (op_value o) = Some text /\
    dispatch cfg sender (storeAction (op_value o)) = Some st1 /\
    sent st1 = sent sender ++ [write_of cfg o; Publish updatesChan (Some text)] /\
    apply (s sender) (op_value o) = Some (s st1) /\
    on_message cfg updatesChan text receiver = Some st2 /\
    apply (s receiver) (op_value o) = Some (s st2).
Proof.
  intros _ Hc Ht Hup Hb. destruct (clean_typed_op o Hc Ht) as [Hop Hparse].
  destruct (dispatch_op_up cfg sender _ Hop Hup Hb) as (set' & c & Ha & Hf & Hd).
  destruct (forward_forwarded cfg _ _ Hop Hf) as (o' & Hview & ->).
  rewrite view_op_value in Hview. injection Hview as <-.
  rewrite stringify_op_value in Hd.
  destruct (message_applied_at_once cfg receiver _ _ Hparse (op_value_own o) Hop)
    as (set2 & Ha2 & Hm).
  eexists (JSON.ser (op_value o)), _, (notify (set_s set2 receiver)).
  split; [apply stringify_op_value|].
  split; [exact Hd|]. repeat split; auto.
Qed.

(** X10. A node's own broadcast does it no harm when it comes back before
    anything else happens: the message of the operation just dispatched,
    an operation with primitive values, leaves the Set as the dispatch
    left it. *)
Theorem own_broadcast_changes_nothing (o : LiveSetOp.t) (st : state) :
  Forall (fun v => primitive v = true) (op_values o) ->
  Forall (fun v => json_clean v = true) (op_values o) ->
  Forall (fun v => typeMatcher v = true) (op_values o) ->
  (pubIsUp st = true -> fanOutBuffer st = []) ->
  exists st1 st2,
    dispatch cfg st (storeAction (op_value o)) = Some st1 /\
    on_message cfg updatesChan (JSON.ser (op_value o)) st1 = Some st2 /\
    s st2 = s st1.
Proof.
  intros _ Hc Ht Hinv. destruct (clean_typed_op o Hc Ht) as [Hop Hparse].
  assert (H1 : exists st1, dispatch cfg st (storeAction (op_value o)) = Some st1
                           /\ s st1 = denote (s st) o).
  { destruct (pubIsUp st) eqn:Hup.
    - destruct (dispatch_op_up cfg st _ Hop Hup (Hinv eq_refl))
        as (set' & c & Ha & _ & Hd).
      rewrite apply_op_value in Ha. injection Ha as <-. eauto.
    - destruct (dispatch_op_down cfg st _ Hop Hup) as (set' & Ha & Hd).
      rewrite apply_op_value in Ha. injection Ha as <-. eauto. }
  destruct H1 as (st1 & Hd & Hs1).
  destruct (message_applied_at_once cfg st1 _ _ Hparse (op_value_own o) Hop)
    as (set2 & Ha2 & Hm).
  exists st1, (notify (set_s set2 st1)). split; [exact Hd|]. split; [exact Hm|].
  rewrite apply_op_value in Ha2. injection Ha2 as <-. simpl.
  rewrite Hs1. apply denote_twice.
Qed.
End local_operations.

(** ** The seed load *)

Section seed_load.
Variable cfg : config.
#[local] Abbreviation key := (cfg_key cfg).
#[local] Abbreviation typeMatcher := (cfg_typeMatcher cfg).
#[local] Abbreviation updatesChan := (cfg_updatesChan cfg).

Lemma isArrayOf_strings (texts : list string) :
  isArrayOf isString (JArr (JStr <$> texts)) = true.
Proof. simpl. induction texts as [|t l IH]; [reflexivity|exact IH]. Qed.

Lemma string_of_strings (texts : list string) :
  map string_of (JStr <$> texts) = texts.
Proof.
  induction texts as [|t l IH]; [reflexivity|].
  rewrite fmap_cons. cbn [map string_of]. f_equal. exact IH.
Qed.

(** The baseline for a reply of strings that all parse. *)
Lemma seed_baseline_strings (st : state) (texts : list string) (vs : list jsval) :
  mapM JSON.parse texts = Some vs ->
  seed_baseline cfg (ReplyValue (JArr (JStr <$> texts))) st
  = dispatch cfg st (storeAction (FanIn (ReplaceAll vs))).
Proof.
  intros Hp. unfold seed_baseline. rewrite isArrayOf_strings.
  unfold array_map. rewrite string_of_strings. simpl. rewrite Hp. reflexivity.
Qed.

Lemma isOp_ReplaceAll (vs : list jsval) :
  isOp cfg (ReplaceAll vs) = forallb typeMatcher vs.
Proof. apply (isLiveSetOp_op_value typeMatcher (LiveSetOp.ReplaceAll vs)). Qed.

(** X11. The seed load reads back what the store writes put under the
    key: answered with the texts [JSON.stringify] gives for clean values
    of the value type, the callback makes the Set exactly those values,
    whatever it held, and ends the loading. *)
Theorem seed_load_restores_members (st : state) (vs : list jsval)
    (texts : list string) :
  fanInBuffer st = [] ->
  Forall (fun v => json_clean v = true) vs ->
  Forall (fun v => typeMatcher v = true) vs ->
  Forall2 (fun v t => JSON.stringify v = Some t) vs texts ->
  exists st',
    on_smembers cfg (ReplyValue (JArr (JStr <$> texts))) st = Some st' /\
    s st' = list_to_set vs /\ isLoadingSeed st' = false.
Proof.
  intros Hin Hc Ht Htexts.
  assert (Hp : mapM JSON.parse texts = Some vs).
  { apply mapM_Some_2. clear Ht.
    induction Htexts as [|v t vs ts Hs _ IH]; [constructor|].
    apply Forall_cons in Hc as [Hv Hc]. constructor; [|apply IH, Hc].
    destruct (JSONFacts.parse_stringify v Hv) as (text & Hs' & Hparse).
    congruence. }
  assert (Hop : isOp cfg (ReplaceAll vs) = true).
  { rewrite isOp_ReplaceAll. apply Forall_forallb, Ht. }
  destruct (dispatch_FanIn cfg st _ Hop) as (set' & Ha & Hd).
  assert (H := apply_op_value (s st) (LiveSetOp.ReplaceAll vs)).
  change (op_value (LiveSetOp.ReplaceAll vs)) with (ReplaceAll vs) in H.
  rewrite H in Ha. injection Ha as <-.
  exists (set_isLoadingSeed false (notify (set_s (list_to_set vs) st))).
  split; [|split; reflexivity].
  unfold on_smembers. rewrite (seed_baseline_strings st texts vs Hp), Hd. simpl.
  rewrite flushFanInBuffer_nil by exact Hin. reflexivity.
Qed.

(** X12. One member of another type spoils the whole snapshot: when the
    members parse but one of them fails the type matcher, the baseline is
    an action the reducer does not know, and the Set stays what it was. *)
Theorem seed_with_foreign_member_ignored (st : state) (texts : list string)
    (vs : list jsval) :
  mapM JSON.parse texts = Some vs ->
  forallb typeMatcher vs = false ->
  seed_baseline cfg (ReplyValue (JArr (JStr <$> texts))) st = Some (notify st).
Proof.
  intros Hp Hbad. rewrite (seed_baseline_strings st texts vs Hp).
  rewrite dispatch_storeAction by discriminate.
  unfold reducer.
  change (prop "type" (storeAction (FanIn (ReplaceAll vs))))
    with (FanIn (ReplaceAll vs)).
  rewrite isOp_FanIn, isFanIn_FanIn, isOp_ReplaceAll, Hbad.
  rewrite isFanOut_eq, has_tag_eq. reflexivity.
Qed.

(** *** The inbound buffer *)

Lemma reducer_fanInBuffer (st st' : state) (action : jsval) :
  reducer cfg st action = Some st' ->
  fanInBuffer st' = fanInBuffer st /\ isLoadingSeed st' = isLoadingSeed st.
Proof.
  assert (Hf : forall v st1, fanOut cfg v st = Some st1 ->
                 fanInBuffer st1 = fanInBuffer st /\
                 isLoadingSeed st1 = isLoadingSeed st).
  { intros v st1. unfold fanOut. destruct (pubIsUp st).
    - destruct (fanOutBuffer st); [|discriminate].
      destruct (forward cfg v); [|discriminate]. intros [= <-]. auto.
    - intros [= <-]. auto. }
  unfold reducer.
  destruct (isOp cfg (prop "type" action)).
  - destruct (apply (s st) (prop "type" action)); [|discriminate]. simpl.
    destruct (fanOut cfg (prop "type" action) st) as [st1|] eqn:E;
      [|discriminate].
    intros [= <-]. apply (Hf _ _ E).
  - destruct (isFanIn cfg (prop "type" action)).
    + destruct (apply (s st) (prop "value" (prop "type" action)));
        [|discriminate].
      intros [= <-]. auto.
    + destruct (isFanOut cfg (prop "type" action)).
      * apply Hf.
      * intros [= <-]. auto.
Qed.

Lemma dispatch_fanInBuffer (st st' : state) (action : jsval) :
  dispatch cfg st action = Some st' ->
  fanInBuffer st' = fanInBuffer st /\ isLoadingSeed st' = isLoadingSeed st.
Proof.
  intros Hd. destruct (dispatch_reducer cfg _ _ _ Hd) as (st1 & Hr & ->).
  apply (reducer_fanInBuffer _ _ _ Hr).
Qed.

Lemma seed_baseline_fanInBuffer (r : reply) (st st' : state) :
  seed_baseline cfg r st = Some st' -> fanInBuffer st' = fanInBuffer st.
Proof.
  destruct r; simpl.
  - intros [= <-]. reflexivity.
  - destruct (if isArrayOf isString value
              then items ← array_map string_of value; mapM JSON.parse items
              else Some []) as [newSet|]; [|discriminate].
    simpl. intros Hd. apply (dispatch_fanInBuffer _ _ _ Hd).
Qed.

(** [fanIn] during a seed load only appends. *)
Lemma fanIn_loading (vs : list jsval) (st : state) :
  isLoadingSeed st = true ->
  forEachM (fun st v => fanIn cfg v st) vs st
  = Some (set_fanInBuffer (fanInBuffer st ++ vs) st).
Proof.
  revert st. induction vs as [|v vs IH]; intros st Hl; cbn [forEachM].
  - rewrite app_nil_r. destruct st; reflexivity.
  - assert (Hv : fanIn cfg v st
                 = Some (set_fanInBuffer (fanInBuffer st ++ [v]) st)).
    { unfold fanIn. rewrite Hl. reflexivity. }
    rewrite Hv. cbn [mbind option_bind]. rewrite IH by exact Hl.
    simpl. rewrite <- app_assoc. reflexivity.
Qed.

(** The loop of [flushFanInBuffer]: the operations applied in order. *)
Lemma replay_loop (buff : list jsval) (st : state) :
  Forall (fun v => isOp cfg v = true) buff ->
  exists st',
    forEachM (fun st op => dispatch cfg st (storeAction (FanIn op))) buff st
    = Some st' /\
    apply_all buff (s st) = Some (s st') /\
    fanInBuffer st' = fanInBuffer st /\ sent st' = sent st.
Proof.
  intros Hall. revert st. induction Hall as [|v vs Hv _ IH]; intros st.
  - exists st. repeat split; reflexivity.
  - destruct (dispatch_FanIn cfg st v Hv) as (set' & Ha & Hd).
    destruct (IH (notify (set_s set' st))) as (st' & H1 & H2 & H3 & H4).
    exists st'. unfold apply_all in *. simpl. rewrite Hd, Ha. simpl.
    repeat split; auto.
Qed.

(** X13. The buffering path, taken by itself, does what it is for:
    operations handed to [fanIn] during a seed load are appended to the
    inbound buffer and leave the Set alone, and the [smembers] callback
    then applies them, oldest first, to the Set its baseline gave, and
    leaves the buffer empty and the loading over. *)
Theorem fanIn_buffers_then_replays (vs : list jsval) (r : reply)
    (st st1 base : state) :
  isLoadingSeed st = true ->
  Forall (fun v => isOp cfg v = true) (fanInBuffer st) ->
  Forall (fun v => isOp cfg v = true) vs ->
  forEachM (fun st v => fanIn cfg v st) vs st = Some st1 ->
  seed_baseline cfg r st1 = Some base ->
  s st1 = s st /\
  fanInBuffer st1 = fanInBuffer st ++ vs /\
  exists st2,
    on_smembers cfg r st1 = Some st2 /\
    apply_all (fanInBuffer st ++ vs) (s base) = Some (s st2) /\
    fanInBuffer st2 = [] /\ isLoadingSeed st2 = false.
Proof.
  intros Hl Hbuf Hvs Hin Hbase.
  rewrite (fanIn_loading vs st Hl) in Hin. injection Hin as <-.
  split; [reflexivity|]. split; [reflexivity|].
  assert (Hb := seed_baseline_fanInBuffer _ _ _ Hbase). simpl in Hb.
  assert (Hall : Forall (fun v => isOp cfg v = true) (fanInBuffer base)).
  { rewrite Hb. apply Forall_app. auto. }
  destruct (replay_loop (fanInBuffer base) (set_fanInBuffer [] base) Hall)
    as (st' & H1 & H2 & H3 & _).
  exists (set_isLoadingSeed false st').
  unfold on_smembers. rewrite Hbase. simpl.
  unfold flushFanInBuffer. rewrite H1. simpl.
  rewrite <- Hb. repeat split; auto.
Qed.
End seed_load.

(** ** Connection events *)

Definition connection_event (e : event) : bool :=
  match e with
  | PubReady | PubFail | SubFail | SubSubscribed _ => true
  | _ => false
  end.

Section connection.
Variable cfg : config.

Lemma dispatch_FanOut_s (st st' : state) (v : jsval) :
  dispatch cfg st (storeAction (FanOut v)) = Some st' -> s st' = s st.
Proof.
  intros Hd. destruct (dispatch_reducer cfg _ _ _ Hd) as (st1 & Hr & ->).
  simpl. revert Hr. unfold reducer.
  change (prop "type" (storeAction (FanOut v))) with (FanOut v).
  rewrite isOp_FanOut, isFanIn_FanOut.
  destruct (isFanOut cfg (FanOut v)).
  - intros H. apply (fanOut_s cfg _ _ _ H).
  - intros [= <-]. reflexivity.
Qed.

Lemma flush_keeps_set (buff : list jsval) (st st' : state) :
  forEachM (fun st op => dispatch cfg st (storeAction (FanOut op))) buff st
  = Some st' ->
  s st' = s st.
Proof.
  revert st. induction buff as [|v buff IH]; intros st; simpl.
  - intros [= <-]. reflexivity.
  - destruct (dispatch cfg st (storeAction (FanOut v))) as [st1|] eqn:E;
      [|discriminate].
    simpl. intros H. rewrite (IH _ H). apply (dispatch_FanOut_s _ _ _ E).
Qed.

(** X14. What the connections report never changes the Set or invokes an
    [onMembersInit] callback: after "ready", a failure event or a
    confirmed subscription the Set is the one before, also when "ready"
    flushes a buffer; and the handler returns whenever the outbound buffer
    holds recognized operations. *)
Theorem connection_events_keep_set (ls : RedisLiveSet) (e : event) :
  connection_event e = true ->
  (forall ls', step cfg ls e = Some ls' ->
               s (_store ls') = s (_store ls) /\ initCalls ls' = initCalls ls) /\
  (Forall (fun v => isOp cfg v = true) (fanOutBuffer (_store ls)) ->
   exists ls', step cfg ls e = Some ls').
Proof.
  destruct e as [v|v|vs| |vs| |cb| | | |ch|r|ch msg]; try discriminate;
    intros _; simpl.
  - split.
    + intros ls'.
      destruct (on_pub_ready cfg (_store ls)) as [st|] eqn:E; [|discriminate].
      intros [= <-]. simpl. split; [|reflexivity].
      apply (flush_keeps_set _ _ _ E).
    + intros Hall.
      destruct (flush_loop cfg (fanOutBuffer (_store ls))
                  (set_fanOutBuffer [] (set_pubIsUp true (_store ls)))
                  Hall eq_refl eq_refl) as (cmds & st2 & _ & Hl & _).
      unfold on_pub_ready, flushFanOutBuffer.
      change (fanOutBuffer (set_pubIsUp true (_store ls)))
        with (fanOutBuffer (_store ls)).
      rewrite Hl. eexists. reflexivity.
  - split; [intros ls' [= <-]; auto|intros _; eexists; reflexivity].
  - split; [intros ls' [= <-]; auto|intros _; eexists; reflexivity].
  - split; [|intros _; eexists; reflexivity].
    intros ls' [= <-]. simpl. unfold on_subscribe.
    destruct (String.eqb ch (cfg_updatesChan cfg)); auto.
Qed.
End connection.

(** ** Registrations and invocations *)

#[global] Instance reply_eq_dec : EqDecision reply.
Proof. solve_decision. Defined.

#[global] Instance event_eq_dec : EqDecision event.
Proof. solve_decision. Defined.

(** The registrations of a callback among the events. *)
Definition registrations (cb : nat) (evs : list event) : nat :=
  length (filter (fun e => e = CallOnMembersInit cb) evs).

Definition waiting (cb : nat) (ls : RedisLiveSet) : nat :=
  length (filter (fun c => c = cb) (_membersInitCallbacks ls)).

Definition invocations (cb : nat) (ls : RedisLiveSet) : nat :=
  length (init_calls_of cb ls).

Section registrations.
Variable cfg : config.

Lemma step_accounting (cb : nat) (ls ls' : RedisLiveSet) (e : event) :
  (_membersInitDone ls = true -> _membersInitCallbacks ls = []) ->
  step cfg ls e = Some ls' ->
  invocations cb ls' + waiting cb ls'
  = invocations cb ls + waiting cb ls + registrations cb [e] /\
  (_membersInitDone ls' = true -> _membersInitCallbacks ls' = []).
Proof.
  intros Hinv.
  assert (Hstore : forall o : option state,
            e <> CallOnMembersInit cb ->
            (st ← o; Some (with_store st ls)) = Some ls' ->
            invocations cb ls' + waiting cb ls'
            = invocations cb ls + waiting cb ls + registrations cb [e] /\
            (_membersInitDone ls' = true -> _membersInitCallbacks ls' = [])).
  { intros [st|] He; [|discriminate]. intros [= <-].
    unfold registrations. rewrite filter_cons_False by exact He.
    split; [|exact Hinv].
    unfold invocations, waiting, init_calls_of. simpl. lia. }
  destruct e as [v|v|vs| |vs| |cb'| | | |ch|r|ch msg]; simpl;
    try (apply Hstore; discriminate);
    try (intros [= <-]; unfold registrations;
         rewrite filter_cons_False by discriminate;
         split; [|exact Hinv];
         unfold invocations, waiting, init_calls_of; simpl; lia).
  - intros [= <-]. unfold onMembersInit, invocations, waiting, init_calls_of,
      registrations.
    rewrite filter_cons. destruct (_membersInitDone ls) eqn:Hdone; simpl.
    + rewrite filter_app, fmap_app, length_app, filter_cons. simpl.
      split; [|exact Hinv].
      destruct (decide (cb' = cb)) as [->|N].
      * rewrite decide_True by reflexivity. simpl. lia.
      * rewrite decide_False by congruence. simpl. lia.
    + rewrite filter_app, length_app, filter_cons. simpl.
      split; [|discriminate].
      destruct (decide (cb' = cb)) as [->|N].
      * rewrite decide_True by reflexivity. simpl. lia.
      * rewrite decide_False by congruence. simpl. lia.
  - unfold seed_load_done.
    destruct (on_smembers cfg r (_store ls)) as [st|]; [|discriminate].
    simpl. destruct r; intros [= <-]; unfold registrations;
      rewrite filter_cons_False by discriminate.
    + split; [|exact Hinv].
      unfold invocations, waiting, init_calls_of; simpl; lia.
    + unfold onMembersLoaded, invocations, waiting, init_calls_of. simpl.
      destruct (_membersInitDone ls) eqn:Hdone; simpl.
      * split; [lia|]. intros _. apply Hinv. reflexivity.
      * rewrite filter_app, fmap_app, length_app, filter_waiting, !length_fmap.
        simpl. split; [lia|reflexivity].
Qed.

Lemma run_accounting (cb : nat) (evs : list event) (ls ls' : RedisLiveSet) :
  (_membersInitDone ls = true -> _membersInitCallbacks ls = []) ->
  run cfg ls evs = Some ls' ->
  invocations cb ls' + waiting cb ls'
  = invocations cb ls + waiting cb ls + registrations cb evs /\
  (_membersInitDone ls' = true -> _membersInitCallbacks ls' = []).
Proof.
  revert ls. induction evs as [|e evs IH]; intros ls Hinv; unfold run; simpl.
  - intros [= <-]. split; [unfold registrations; simpl; lia|exact Hinv].
  - destruct (step cfg ls e) as [ls1|] eqn:E; [|discriminate]. simpl.
    intros Hr. destruct (step_accounting cb _ _ _ Hinv E) as [H1 Hinv1].
    destruct (IH ls1 Hinv1 Hr) as [H2 Hinv2]. split; [|exact Hinv2].
    rewrite H2, H1. unfold registrations.
    rewrite (filter_cons _ e evs). rewrite !filter_cons, filter_nil.
    destruct (decide (e = CallOnMembersInit cb)); simpl; lia.
Qed.

(** X15. Invocations of an [onMembersInit] callback never outnumber its
    registrations: along every run each registration of a callback is
    either still waiting or has led to exactly one invocation, and once
    the members are loaded none is waiting, so that it has been invoked
    once per registration. *)
Theorem one_invocation_per_registration (cb : nat) (evs : list event)
    (ls : RedisLiveSet) :
  run cfg (new_RedisLiveSet cfg) evs = Some ls ->
  invocations cb ls + waiting cb ls = registrations cb evs /\
  (_membersInitDone ls = true -> invocations cb ls = registrations cb evs).
Proof.
  intros Hr.
  assert (H0 : _membersInitDone (new_RedisLiveSet cfg) = true ->
               _membersInitCallbacks (new_RedisLiveSet cfg) = []).
  { reflexivity. }
  destruct (run_accounting cb evs _ ls H0 Hr) as [H Hinv].
  change (invocations cb (new_RedisLiveSet cfg)) with 0 in H.
  change (waiting cb (new_RedisLiveSet cfg)) with 0 in H.
  split; [lia|]. intros Hdone. unfold waiting in H.
  rewrite (Hinv Hdone) in H. simpl in H. lia.
Qed.
End registrations.

(** ** The further properties on a set of numbers *)

(** A day in the life of a set: a subscriber, operations with the publish
    side down and up, one with a string, a seed load with a message in
    between, a callback, a failure. *)
Definition busy_day : list event :=
  [CallSubscribe; CallAdd (JNum 1); CallAdd (JStr "x"); PubReady;
   CallAddAll [JNum 2; JNum 3]; SubSubscribed "set"; SubMessage "set" add99;
   SmembersReply (ReplyValue (JArr [JStr "1"; JStr "5"]));
   CallOnMembersInit 0; CallRemove (JNum 5); PubFail; CallClear].

Definition busy : RedisLiveSet :=
  default (new_RedisLiveSet numbers) (run numbers (new_RedisLiveSet numbers) busy_day).

Lemma set_holds_typed_values_witness : typed_set numbers (s (_store busy)).
Proof.
  unfold typed_set.
  apply (set_holds_typed_values numbers busy_day busy). by_running.
Defined.

Lemma ill_typed_operation_ignored_witness :
  dispatch numbers pub_down (storeAction (op_value (LiveSetOp.Add (JStr "x"))))
  = Some (notify pub_down).
Proof.
  apply (ill_typed_operation_ignored numbers pub_down (LiveSetOp.Add (JStr "x"))).
  reflexivity.
Defined.

Lemma calls_come_in_blocks_witness :
  exists blocks,
    sent (_store busy) = concat blocks /\ Forall (block_ok numbers) blocks.
Proof. apply (calls_come_in_blocks numbers busy_day busy). by_running. Defined.

Lemma pubIsUp_buffer_empty_witness : buffers_ok numbers (_store busy).
Proof. apply (pubIsUp_buffer_empty numbers busy_day busy). by_running. Defined.

(** The store once a failure event has followed "ready". *)
Definition pub_lost : state := on_pub_fail pub_up.

Lemma local_operations_in_order_witness :
  (exists st1,
     dispatch_all numbers [Add (JNum 1); Remove (JNum 1)] pub_up = Some st1 /\
     apply_all [Add (JNum 1); Remove (JNum 1)] (s pub_up) = Some (s st1) /\
     if pubIsUp pub_up then
       exists cmds,
         Forall2 (forwarded numbers) [Add (JNum 1); Remove (JNum 1)] cmds /\
         sent st1 = sent pub_up ++ concat cmds /\ fanOutBuffer st1 = []
     else sent st1 = sent pub_up /\
          fanOutBuffer st1 = fanOutBuffer pub_up ++ [Add (JNum 1); Remove (JNum 1)]) /\
  (exists st1,
     dispatch_all numbers [Add (JNum 1); Remove (JNum 1)] pub_lost = Some st1 /\
     apply_all [Add (JNum 1); Remove (JNum 1)] (s pub_lost) = Some (s st1) /\
     if pubIsUp pub_lost then
       exists cmds,
         Forall2 (forwarded numbers) [Add (JNum 1); Remove (JNum 1)] cmds /\
         sent st1 = sent pub_lost ++ concat cmds /\ fanOutBuffer st1 = []
     else sent st1 = sent pub_lost /\
          fanOutBuffer st1 = fanOutBuffer pub_lost ++ [Add (JNum 1); Remove (JNum 1)]).
Proof.
  split.
  - apply (local_operations_in_order numbers [Add (JNum 1); Remove (JNum 1)] pub_up).
    + repeat constructor.
    + reflexivity.
  - apply (local_operations_in_order numbers [Add (JNum 1); Remove (JNum 1)] pub_lost).
    + repeat constructor.
    + discriminate.
Defined.

Example scenario_forwarded_at_once :
  (fun st => sent st) <$>
    dispatch_all numbers [Add (JNum 1); Remove (JNum 1)] pub_up
  = Some [Subscribe "set";
          Sadd "set" [JSON.stringify (JNum 1)];
          Publish "set" (JSON.stringify (Add (JNum 1)));
          Srem "set" [JSON.stringify (JNum 1)];
          Publish "set" (JSON.stringify (Remove (JNum 1)))].
Proof. by_running. Qed.

Lemma published_operation_replicates_witness :
  exists text st1 st2,
    JSON.stringify (op_value (LiveSetOp.Add (JNum 4))) = Some text /\
    dispatch numbers pub_up (storeAction (op_value (LiveSetOp.Add (JNum 4)))) = Some st1 /\
    sent st1 = sent pub_up ++ [write_of numbers (LiveSetOp.Add (JNum 4));
                               Publish (cfg_updatesChan numbers) (Some text)] /\
    apply (s pub_up) (op_value (LiveSetOp.Add (JNum 4))) = Some (s st1) /\
    on_message numbers (cfg_updatesChan numbers) text loading_7 = Some st2 /\
    apply (s loading_7) (op_value (LiveSetOp.Add (JNum 4))) = Some (s st2).
Proof.
  apply (published_operation_replicates numbers (LiveSetOp.Add (JNum 4))
           pub_up loading_7);
    repeat constructor.
Defined.

Lemma own_broadcast_changes_nothing_witness :
  exists st1 st2,
    dispatch numbers loading_7 (storeAction (op_value (LiveSetOp.Remove (JNum 7))))
    = Some st1 /\
    on_message numbers (cfg_updatesChan numbers)
      (JSON.ser (op_value (LiveSetOp.Remove (JNum 7)))) st1 = Some st2 /\
    s st2 = s st1.
Proof.
  apply (own_broadcast_changes_nothing numbers (LiveSetOp.Remove (JNum 7)) loading_7).
  - repeat constructor.
  - repeat constructor.
  - repeat constructor.
  - discriminate.
Defined.

Lemma seed_load_restores_members_witness :
  exists st',
    on_smembers numbers (ReplyValue (JArr (JStr <$> ["1"; "-2"]))) loading_7 = Some st' /\
    s st' = list_to_set [JNum 1; JNum (-2)] /\ isLoadingSeed st' = false.
Proof.
  apply (seed_load_restores_members numbers loading_7 [JNum 1; JNum (-2)] ["1"; "-2"]);
    repeat constructor.
Defined.

(** The members 1 and the string x under the key of a set of numbers. *)
Definition mixed_members : list string := ["1"; JSON.ser (JStr "x")].

Lemma seed_with_foreign_member_ignored_witness :
  seed_baseline numbers (ReplyValue (JArr (JStr <$> mixed_members))) loading_7
  = Some (notify loading_7).
Proof.
  apply (seed_with_foreign_member_ignored numbers loading_7 mixed_members
           [JNum 1; JStr "x"]).
  - by_running.
  - reflexivity.
Defined.

Lemma subscribers_track_the_set_witness :
  Forall
    (fun l => no_repeat (calls l) /\
              (calls l = [] \/ last (calls l) = Some (s (_store busy))))
    (listeners (_store busy)).
Proof.
  apply (subscribers_track_the_set numbers busy_day busy).
  - apply isNumber_primitive.
  - by_running.
Defined.

(** A live set with two operations buffered. *)
Definition two_buffered : RedisLiveSet :=
  default (new_RedisLiveSet numbers)
    (run numbers (new_RedisLiveSet numbers) [CallAdd (JNum 1); CallAdd (JNum 2)]).

Lemma connection_events_keep_set_witness :
  (forall ls', step numbers two_buffered PubReady = Some ls' ->
               s (_store ls') = s (_store two_buffered) /\
               initCalls ls' = initCalls two_buffered) /\
  (Forall (fun v => isOp numbers v = true) (fanOutBuffer (_store two_buffered)) ->
   exists ls', step numbers two_buffered PubReady = Some ls').
Proof. apply (connection_events_keep_set numbers two_buffered PubReady). reflexivity. Defined.

(** Scenario 4 as [fanIn] would have it: [Add(99)] handed to [fanIn]
    while the fetch is pending, the fetch answering 1. *)
Definition loading_99 : state := set_fanInBuffer [Add (JNum 99)] loading.

Definition base_1 : state :=
  default loading (seed_baseline numbers (ReplyValue (JArr [JStr "1"])) loading_99).

Lemma fanIn_buffers_then_replays_witness :
  s loading_99 = s loading /\
  fanInBuffer loading_99 = fanInBuffer loading ++ [Add (JNum 99)] /\
  exists st2,
    on_smembers numbers (ReplyValue (JArr [JStr "1"])) loading_99 = Some st2 /\
    apply_all (fanInBuffer loading ++ [Add (JNum 99)]) (s base_1) = Some (s st2) /\
    fanInBuffer st2 = [] /\ isLoadingSeed st2 = false.
Proof.
  apply (fanIn_buffers_then_replays numbers [Add (JNum 99)]
           (ReplyValue (JArr [JStr "1"])) loading loading_99 base_1).
  - reflexivity.
  - constructor.
  - repeat constructor.
  - by_running.
  - by_running.
Defined.

Example scenario_fanIn_keeps_message :
  (fun st => s st) <$> on_smembers numbers (ReplyValue (JArr [JStr "1"])) loading_99
  = Some {[JNum 1; JNum 99]}.
Proof. by_running. Qed.

Lemma one_invocation_per_registration_witness :
  invocations 0 busy + waiting 0 busy = registrations 0 busy_day /\
  (_membersInitDone busy = true -> invocations 0 busy = registrations 0 busy_day).
Proof. apply (one_invocation_per_registration numbers 0 busy_day busy). by_running. Defined.

(** ** Action shapes, and what arrives *)

Section inbound_only.
Variable cfg : config.

(** X16. The three recognizers of the reducer exclude one another: no
    value is at once an operation, a FanIn and a FanOut, whatever the type
    matcher, so that the order of the cases of the reducer decides
    nothing. *)
Theorem action_shapes_exclusive (v : jsval) :
  Nat.b2n (isOp cfg v) + Nat.b2n (isFanIn cfg v) + Nat.b2n (isFanOut cfg v) <= 1.
Proof.
  destruct (isFanOut cfg v) eqn:Hout.
  - destruct (isFanOut_exclusive cfg v Hout) as [-> ->]. simpl. lia.
  - destruct (isFanIn cfg v) eqn:Hin.
    + rewrite (isFanIn_exclusive cfg v Hin). simpl. lia.
    + destruct (isOp cfg v); simpl; lia.
Qed.



End inbound_only.
